(** * The swarmkit port allocator (manager/allocator/network/port/port.go)

    A shallow embedding of the port allocator and the proofs of its
    specification.  Maps used as sets are [gset]s, the allocator object that
    a proposal points to is a state threaded through every call, and the
    errors of [Allocate] are values of a sum type. *)

From stdpp Require Import base countable numbers list strings gmap fin_sets.

Local Open Scope N_scope.

(** ** Data model *)

(** Modelled from the spec: the [api] package is not part of the sources;
    [api.PortConfig_Protocol] is the enumeration of the protocols the spec
    lists (tcp, udp, sctp). *)
Inductive PortConfig_Protocol := ProtocolTCP | ProtocolUDP | ProtocolSCTP.

(** Modelled from the spec: [api.PortConfig_PublishMode] has the two publish
    modes of the spec, ingress and host. *)
Inductive PortConfig_PublishMode := PublishModeIngress | PublishModeHost.

#[global] Instance PortConfig_Protocol_eq_dec : EqDecision PortConfig_Protocol.
Proof. solve_decision. Defined.

#[global] Instance PortConfig_PublishMode_eq_dec : EqDecision PortConfig_PublishMode.
Proof. solve_decision. Defined.

Definition protocol_code (p : PortConfig_Protocol) : nat :=
  match p with ProtocolTCP => 0%nat | ProtocolUDP => 1%nat | ProtocolSCTP => 2%nat end.

Definition protocol_of_code (n : nat) : PortConfig_Protocol :=
  match n with 0%nat => ProtocolTCP | 1%nat => ProtocolUDP | _ => ProtocolSCTP end.

#[global] Instance PortConfig_Protocol_countable : Countable PortConfig_Protocol.
Proof.
  apply (inj_countable' protocol_code protocol_of_code).
  by intros [].
Defined.

(** Modelled from the spec: [api.PortConfig], the port descriptor, with the
    fields the allocator reads.  [uint32] values are naturals; the allocator
    only compares them and counts from 30000 to 32768, so nothing wraps. *)
Record PortConfig := mkPortConfig {
  Name : string;
  Protocol : PortConfig_Protocol;
  TargetPort : N;
  PublishedPort : N;
  PublishMode : PortConfig_PublishMode
}.

#[global] Instance PortConfig_eq_dec : EqDecision PortConfig.
Proof. solve_decision. Defined.

(** [p.PublishedPort = n] on a descriptor the allocator owns. *)
Definition set_PublishedPort (p : PortConfig) (n : N) : PortConfig :=
  {| Name := Name p; Protocol := Protocol p; TargetPort := TargetPort p;
     PublishedPort := n; PublishMode := PublishMode p |}.

(** Modelled from the spec: [api.EndpointSpec] and [api.Endpoint].  A slice
    of descriptors is a list; its entries are never nil (the allocator
    dereferences every entry it visits).  A pointer to a spec that may be
    nil is an [option]; the endpoint that [Allocate], [Deallocate] and
    [Restore] receive is dereferenced without a test and is never nil, while
    [AlreadyAllocated] tests its endpoint and takes an [option]. *)
Record EndpointSpec := mkEndpointSpec { SpecPorts : list PortConfig }.

Record Endpoint := mkEndpoint {
  Spec : option EndpointSpec;
  Ports : list PortConfig
}.

Definition DynamicPortStart : N := 30000.
Definition DynamicPortEnd : N := 32767.
Definition masterPortStart : N := 1.
Definition masterPortEnd : N := 65535.

(** [port]: the key of a reservation, [port{protocol, port}]. *)
Definition port : Type := PortConfig_Protocol * N.

(** [port{p.Protocol, p.PublishedPort}] *)
Definition port_of (p : PortConfig) : port := (Protocol p, PublishedPort p).

(** [allocator]: the one object every proposal points to. *)
Record allocator := mkAllocator { a_ports : gset port }.

(** Modelled from the spec: the constructors of the [errors] package, which
    is not part of the sources; each error keeps what its message is
    formatted from. *)
Inductive InvalidSpecReason :=
  | PublishedPortOutOfRange (n : N)
  | TargetPortOutOfRange (n : N)
  | AssignedMoreThanOnce (p : port).

Inductive error :=
  | ErrInvalidSpec (why : InvalidSpecReason)
  | ErrResourceInUse (p : port)
  | ErrResourceExhausted (proto : PortConfig_Protocol).

Inductive result (A : Type) :=
  | Ok (a : A)
  | Err (e : error).
Arguments Ok {A} a.
Arguments Err {A} e.

(** [proposal]: [ports] is [None] for a nil slice.  [allocate] and
    [deallocate] are maps of the proposal alone: each function that builds a
    proposal makes them anew, or leaves them nil, and a nil map reads as the
    empty one and is never written; so they are values.  The field [pa]
    points to the allocator, the state that the monad below threads. *)
Record proposal := mkProposal {
  ports : option (list PortConfig);
  allocate : gset port;
  deallocate : gset port
}.

(** ** Map iteration

    Go leaves the order of [range] over a map unspecified, and two loops over
    one map may see different orders.  [range_order k m] is the order in which
    the [k]-th such loop of a call visits the keys of [m]; all that is known
    is that every key is visited once. *)
Record map_order := mkMapOrder {
  range_order : nat -> gset port -> list port;
  range_order_perm : forall k m, range_order k m ≡ₚ elements m
}.

Definition elements_order : map_order :=
  {| range_order := fun _ m => elements m;
     range_order_perm := fun _ m => reflexivity (elements m) |}.

(** ** The allocator monad: state of the allocator, and the error return *)

Definition M (A : Type) : Type := allocator -> result A * allocator.

Definition ret {A} (a : A) : M A := fun pa => (Ok a, pa).

Definition raise {A} (e : error) : M A := fun pa => (Err e, pa).

Definition bind {A B} (m : M A) (f : A -> M B) : M B :=
  fun pa => match m pa with
            | (Ok a, pa') => f a pa'
            | (Err e, pa') => (Err e, pa')
            end.

Definition lift {A} (r : result A) : M A := fun pa => (r, pa).

(** [_, ok := pa.ports[p]] *)
Definition in_use (p : port) : M bool :=
  fun pa => (Ok (bool_decide (p ∈ a_ports pa)), pa).

(** [delete(pa.ports, p)] *)
Definition delete_port (p : port) : M unit :=
  fun pa => (Ok tt, {| a_ports := a_ports pa ∖ {[p]} |}).

(** [pa.ports[p] = struct{}{}] *)
Definition insert_port (p : port) : M unit :=
  fun pa => (Ok tt, {| a_ports := {[p]} ∪ a_ports pa |}).

Notation "'let*' x ':=' m 'in' f" := (bind m (fun x => f))
  (at level 10, x pattern, m at level 100, f at level 200).

Definition run {A} (m : M A) (pa : allocator) : result A := fst (m pa).
Definition exec {A} (m : M A) (pa : allocator) : allocator := snd (m pa).

(** ** Equality helpers *)

(** [PortsMostlyEqual]: the arguments are pointers, [None] is nil.  Two equal
    pointers are both nil or point to one descriptor, whose fields then agree
    with themselves, so the pointer test only decides the nil case. *)
Definition PortsMostlyEqual (some other : option PortConfig) : bool :=
  match some, other with
  | None, None => true
  | Some s, Some o =>
      bool_decide (Name s = Name o) &&
      bool_decide (TargetPort s = TargetPort o) &&
      bool_decide (Protocol s = Protocol o) &&
      bool_decide (PublishMode s = PublishMode o)
  | _, _ => false
  end.

(** [portsEqual]: its callers pass entries of port lists, which are not nil,
    so the arguments are the descriptors themselves (on two nil pointers the
    source would read [some.PublishedPort] through nil). *)
Definition portsEqual (some other : PortConfig) : bool :=
  PortsMostlyEqual (Some some) (Some other) &&
  bool_decide (PublishedPort some = PublishedPort other).

Definition is_host (p : PortConfig) : bool :=
  bool_decide (PublishMode p = PublishModeHost).

(** ** Proposals *)

Section Allocator.

Context (o : map_order).

(** [Ports] *)
Definition Proposal_Ports (prop : proposal) : list PortConfig :=
  match ports prop with
  | None => []
  | Some ps => ps
  end.

(** [IsNoop] *)
Definition IsNoop (prop : proposal) : bool :=
  if negb (size (allocate prop) =? size (deallocate prop))%nat then false
  else forallb (fun p => bool_decide (p ∈ deallocate prop))
               (range_order o 0 (allocate prop)).

Fixpoint delete_each (ps : list port) : M unit :=
  match ps with
  | [] => ret tt
  | p :: rest => let* _ := delete_port p in delete_each rest
  end.

Fixpoint insert_each (ps : list port) : M unit :=
  match ps with
  | [] => ret tt
  | p :: rest => let* _ := insert_port p in insert_each rest
  end.

(** [Commit] *)
Definition Commit (prop : proposal) : M unit :=
  if IsNoop prop then ret tt
  else
    let* _ := delete_each (range_order o 1 (deallocate prop)) in
    insert_each (range_order o 2 (allocate prop)).

(** [NewAllocator] *)
Definition NewAllocator : allocator := {| a_ports := ∅ |}.

(** The loop over a list of realized ports that every entry point has: the
    key of each port that is not in host mode goes into the map [m]. *)
Fixpoint mark_ports (ps : list PortConfig) (m : gset port) : gset port :=
  match ps with
  | [] => m
  | p :: rest =>
      if is_host p then mark_ports rest m
      else mark_ports rest ({[port_of p]} ∪ m)
  end.

Fixpoint mark_endpoints (endpoints : list Endpoint) (m : gset port) : gset port :=
  match endpoints with
  | [] => m
  | endpoint :: rest => mark_endpoints rest (mark_ports (Ports endpoint) m)
  end.

(** [Restore] *)
Definition Restore (endpoints : list Endpoint) : M unit :=
  Commit {| ports := None;
            allocate := mark_endpoints endpoints ∅;
            deallocate := ∅ |}.

(** [Deallocate] *)
Definition Deallocate (endpoint : Endpoint) : proposal :=
  {| ports := None;
     allocate := ∅;
     deallocate := mark_ports (Ports endpoint) ∅ |}.

(** ** Allocate *)

(** The innermost loop of the first loop of [Allocate]: every realized port
    that is mostly equal to [spec] overwrites the published port of the
    result; there is no [break]. *)
Fixpoint take_published (spec : PortConfig) (realized : list PortConfig)
    (final : PortConfig) : PortConfig :=
  match realized with
  | [] => final
  | p :: rest =>
      if PortsMostlyEqual (Some spec) (Some p)
      then take_published spec rest (set_PublishedPort final (PublishedPort p))
      else take_published spec rest final
  end.

(** The loop over the ports of the old spec. *)
Fixpoint recover_published (spec : PortConfig) (olds realized : list PortConfig)
    (final : PortConfig) : PortConfig :=
  match olds with
  | [] => final
  | old :: rest =>
      if portsEqual old spec
      then recover_published spec rest realized (take_published spec realized final)
      else recover_published spec rest realized final
  end.

(** The body of the first loop for one descriptor of the spec, after the
    range checks: the entry of [finalPorts]. *)
Definition final_port (endpoint : Endpoint) (spec : PortConfig) : PortConfig :=
  if is_host spec then spec
  else if negb (PublishedPort spec =? 0) then spec
  else match Spec endpoint with
       | None => spec
       | Some old => recover_published spec (SpecPorts old) (Ports endpoint) spec
       end.

(** The first loop of [Allocate]: range checks and recovery of the ports
    assigned before.  It reads neither the allocator nor a proposal. *)
Fixpoint recover_ports (endpoint : Endpoint) (specs : list PortConfig)
    : result (list PortConfig) :=
  match specs with
  | [] => Ok []
  | spec :: rest =>
      if masterPortEnd <? PublishedPort spec
      then Err (ErrInvalidSpec (PublishedPortOutOfRange (PublishedPort spec)))
      else if masterPortEnd <? TargetPort spec
      then Err (ErrInvalidSpec (TargetPortOutOfRange (TargetPort spec)))
      else match recover_ports endpoint rest with
           | Ok finals => Ok (final_port endpoint spec :: finals)
           | Err e => Err e
           end
  end.

(** The first allocation pass, over the ports that have a published port. *)
Fixpoint fixed_pass (deallocate : gset port) (finalPorts : list PortConfig)
    (allocate : gset port) : M (gset port) :=
  match finalPorts with
  | [] => ret allocate
  | p :: rest =>
      if (PublishedPort p =? 0) || is_host p
      then fixed_pass deallocate rest allocate
      else
        let portObj := port_of p in
        let* ok := in_use portObj in
        if ok && negb (bool_decide (portObj ∈ deallocate))
        then raise (ErrResourceInUse portObj)
        else if bool_decide (portObj ∈ allocate)
        then raise (ErrInvalidSpec (AssignedMoreThanOnce portObj))
        else fixed_pass deallocate rest ({[portObj]} ∪ allocate)
  end.

(** The number of values [i] takes in
    [for i := DynamicPortStart; i <= DynamicPortEnd; i++]. *)
Definition dynamic_count : nat := N.to_nat (DynamicPortEnd + 1 - DynamicPortStart).

(** That loop, from [i] on with [n] values left: the first port whose key is
    neither in use nor in [allocate]. *)
Fixpoint scan (proto : PortConfig_Protocol) (allocate : gset port)
    (i : N) (n : nat) : M (option N) :=
  match n with
  | O => ret None
  | S n' =>
      let* ok := in_use (proto, i) in
      if negb ok && negb (bool_decide ((proto, i) ∈ allocate))
      then ret (Some i)
      else scan proto allocate (i + 1) n'
  end.

(** The test of the loop over [prop.deallocate]. *)
Definition reusable (proto : PortConfig_Protocol) (allocate : gset port)
    (deallocated : port) : bool :=
  bool_decide (deallocated.1 = proto) &&
  (DynamicPortStart <=? deallocated.2) &&
  (deallocated.2 <=? DynamicPortEnd) &&
  negb (bool_decide (deallocated ∈ allocate)).

(** The port chosen for one descriptor of the second pass, the [k]-th of
    [finalPorts]; [None] when the function reaches its last [return]. *)
Definition choose_port (k : nat) (proto : PortConfig_Protocol)
    (deallocate allocate : gset port) : M (option N) :=
  let* found := scan proto allocate DynamicPortStart dynamic_count in
  match found with
  | Some i => ret (Some i)
  | None =>
      ret (snd <$> List.find (reusable proto allocate) (range_order o k deallocate))
  end.

(** The second allocation pass. *)
Fixpoint dynamic_pass (deallocate : gset port) (k : nat)
    (finalPorts : list PortConfig) (allocate : gset port)
    : M (list PortConfig * gset port) :=
  match finalPorts with
  | [] => ret ([], allocate)
  | p :: rest =>
      if negb (PublishedPort p =? 0) || is_host p
      then
        let* r := dynamic_pass deallocate (S k) rest allocate in
        ret (p :: r.1, r.2)
      else
        let* chosen := choose_port k (Protocol p) deallocate allocate in
        match chosen with
        | Some i =>
            let* r := dynamic_pass deallocate (S k) rest
                        ({[(Protocol p, i)]} ∪ allocate) in
            ret (set_PublishedPort p i :: r.1, r.2)
        | None => raise (ErrResourceExhausted (Protocol p))
        end
  end.

(** [Allocate] *)
Definition Allocate (endpoint : Endpoint) (spec : option EndpointSpec) : M proposal :=
  let spec := match spec with
              | None => {| SpecPorts := [] |}
              | Some s => s
              end in
  let* finalPorts := lift (recover_ports endpoint (SpecPorts spec)) in
  let deallocate := mark_ports (Ports endpoint) ∅ in
  let* allocate := fixed_pass deallocate finalPorts ∅ in
  let* r := dynamic_pass deallocate 0 finalPorts allocate in
  ret {| ports := Some r.1; allocate := r.2; deallocate := deallocate |}.

End Allocator.

(** ** AlreadyAllocated *)

(** A call either returns or panics on a nil dereference. *)
Inductive outcome (A : Type) :=
  | Returns (a : A)
  | Panics.
Arguments Returns {A} a.
Arguments Panics {A}.

(** [x.f] on a pointer [x] *)
Definition deref {A B} (x : option A) (k : A -> outcome B) : outcome B :=
  match x with
  | None => Panics
  | Some a => k a
  end.

Definition is_nil {A} (x : option A) : bool :=
  match x with None => true | Some _ => false end.

(** The loop labelled [portsLoop] and its inner loop. *)
Definition has_equal (specPorts : list PortConfig) (port : PortConfig) : bool :=
  existsb (fun specPort => portsEqual port specPort) specPorts.

Definition portsLoop (endpointPorts specPorts : list PortConfig) : bool :=
  forallb (has_equal specPorts) endpointPorts.

(** [AlreadyAllocated] *)
Definition AlreadyAllocated (endpoint : option Endpoint) (spec : option EndpointSpec)
    : outcome bool :=
  if is_nil endpoint && is_nil spec then Returns true
  else if is_nil endpoint && negb (is_nil spec) then Returns false
  else
    deref endpoint (fun ep =>
    if is_nil (Spec ep) && negb (is_nil spec) then Returns false
    else
      (* endpoint.Spec != nil && len(endpoint.Spec.Ports) > 0 *)
      let stored_has_ports :=
        match Spec ep with
        | None => false
        | Some epSpec => (0 <? length (SpecPorts epSpec))%nat
        end in
      if is_nil spec && stored_has_ports then Returns false
      else
        deref (Spec ep) (fun epSpec =>
        deref spec (fun sp =>
        if negb (length (SpecPorts epSpec) =? length (SpecPorts sp))%nat
        then Returns false
        else Returns (portsLoop (SpecPorts epSpec) (SpecPorts sp))))).

(** ** Vocabulary of the specification *)

(** A computation that never writes the allocator. *)
Definition read_only {A} (m : M A) : Prop := forall pa, exec m pa = pa.

(** A key neither reserved in the allocator nor in the reserve-set. *)
Definition free (pa : allocator) (allocate : gset port) (key : port) : Prop :=
  (key ∉ a_ports pa) ∧ (key ∉ allocate).

Definition in_dynamic_range (i : N) : Prop :=
  DynamicPortStart ≤ i ∧ i ≤ DynamicPortEnd.

(** [i] is the first port of the dynamic range, in ascending order, whose
    key is free. *)
Definition first_free (pa : allocator) (allocate : gset port)
    (proto : PortConfig_Protocol) (i : N) : Prop :=
  in_dynamic_range i ∧ free pa allocate (proto, i) ∧
  ∀ j, in_dynamic_range j → j < i → ¬ free pa allocate (proto, j).

(** No port of the dynamic range has a free key. *)
Definition exhausted (pa : allocator) (allocate : gset port)
    (proto : PortConfig_Protocol) : Prop :=
  ∀ j, in_dynamic_range j → ¬ free pa allocate (proto, j).

(** A key of the release-set that the second pass may take. *)
Definition can_reuse (proto : PortConfig_Protocol) (deallocate allocate : gset port)
    (key : port) : Prop :=
  key ∈ deallocate ∧ key.1 = proto ∧ in_dynamic_range key.2 ∧ key ∉ allocate.

(** The descriptors the first pass handles, and those the second handles. *)
Definition is_fixed (p : PortConfig) : bool :=
  negb ((PublishedPort p =? 0) || is_host p).

Definition is_dynamic (p : PortConfig) : bool :=
  negb (negb (PublishedPort p =? 0) || is_host p).

(** The keys the first pass forms, in the order of the list. *)
Definition fixed_keys (ps : list PortConfig) : list port :=
  port_of <$> List.filter is_fixed ps.

(** How the second pass turns a descriptor [p] of [finalPorts] into the
    descriptor [r] of the result, [a'] being the reserve-set it returns. *)
Definition assigned (a' : gset port) (p r : PortConfig) : Prop :=
  if is_dynamic p
  then r = set_PublishedPort p (PublishedPort r) ∧
       in_dynamic_range (PublishedPort r) ∧ port_of r ∈ a'
  else r = p.

(** Both port numbers of a descriptor are at most [masterPortEnd]. *)
Definition in_master_range (p : PortConfig) : Prop :=
  PublishedPort p ≤ masterPortEnd ∧ TargetPort p ≤ masterPortEnd.

#[global] Instance in_master_range_dec (p : PortConfig) : Decision (in_master_range p).
Proof. unfold in_master_range. apply _. Defined.

(** The error of a call is [InvalidSpec] for a port number out of range. *)
Definition out_of_range_error (e : error) : Prop :=
  ∃ n, e = ErrInvalidSpec (PublishedPortOutOfRange n) ∨
       e = ErrInvalidSpec (TargetPortOutOfRange n).

(** The realized ports that are mostly equal to a descriptor of the spec. *)
Definition mostly_equal_ports (spec : PortConfig) (realized : list PortConfig)
    : list PortConfig :=
  List.filter (fun p => PortsMostlyEqual (Some spec) (Some p)) realized.

(** The published port the first loop gives to a dynamic descriptor [spec]:
    when the stored spec has a descriptor equal to [spec], published port
    included, the published port of the last realized port that is mostly
    equal to [spec]; 0 when one of the two is missing. *)
Definition recovered_port (endpoint : Endpoint) (spec : PortConfig) : N :=
  match Spec endpoint with
  | None => 0
  | Some old =>
      if existsb (fun o => portsEqual o spec) (SpecPorts old)
      then match last (mostly_equal_ports spec (Ports endpoint)) with
           | Some p => PublishedPort p
           | None => 0
           end
      else 0
  end.

(** ** Example values *)

Definition web : PortConfig :=
  {| Name := "web"; Protocol := ProtocolTCP; TargetPort := 80;
     PublishedPort := 0; PublishMode := PublishModeIngress |}.

Definition admin : PortConfig :=
  {| Name := "admin"; Protocol := ProtocolTCP; TargetPort := 81;
     PublishedPort := 0; PublishMode := PublishModeIngress |}.

(** An endpoint that was never allocated. *)
Definition fresh_endpoint : Endpoint := {| Spec := None; Ports := [] |}.

(** The allocator in which every TCP port of the dynamic range is reserved. *)
Definition tcp_dynamic_keys : list port :=
  (fun i => (ProtocolTCP, DynamicPortStart + N.of_nat i)) <$> seq 0 dynamic_count.

Definition full_tcp : allocator := {| a_ports := list_to_set tcp_dynamic_keys |}.

Definition web8080 : PortConfig := set_PublishedPort web 8080.

(** The allocator after some other endpoint reserved TCP port 8080. *)
Definition tcp8080_taken : allocator := {| a_ports := {[(ProtocolTCP, 8080)]} |}.

(** An endpoint whose port 8080 the user had fixed in the stored spec. *)
Definition fixed8080_endpoint : Endpoint :=
  {| Spec := Some {| SpecPorts := [web8080] |}; Ports := [web8080] |}.

(** The endpoint of a first allocation of [web], which got port 30000. *)
Definition allocated_endpoint : Endpoint :=
  {| Spec := Some {| SpecPorts := [web] |};
     Ports := [set_PublishedPort web 30000] |}.

Definition admin8080 : PortConfig := set_PublishedPort admin 8080.

Definition web65536 : PortConfig := set_PublishedPort web 65536.

(** An endpoint allocated for two dynamic ports with one descriptor. *)
Definition twin_spec : EndpointSpec := {| SpecPorts := [web; web] |}.

Definition twin_endpoint : Endpoint :=
  {| Spec := Some twin_spec;
     Ports := [set_PublishedPort web 30000; set_PublishedPort web 30001] |}.

(** ** Vocabulary of the further properties *)

(** The keys of the ports of a list that are not in host mode, in the order
    of the list. *)
Definition ingress_keys (ps : list PortConfig) : list port :=
  port_of <$> List.filter (fun p => negb (is_host p)) ps.

(** The realized ports of a list of endpoints, one endpoint after the
    other. *)
Definition all_ports (endpoints : list Endpoint) : list PortConfig :=
  concat (Ports <$> endpoints).

Definition host8080 : PortConfig :=
  {| Name := "web"; Protocol := ProtocolTCP; TargetPort := 80;
     PublishedPort := 8080; PublishMode := PublishModeHost |}.

(** What a result descriptor [r] is for the descriptor [sp] of the spec at
    the same index: [sp] but for the published port; [sp] itself when [sp]
    is in host mode or has a published port; and with a published port
    unless in host mode. *)
Definition result_of (sp r : PortConfig) : Prop :=
  r = set_PublishedPort sp (PublishedPort r) ∧
  (PublishMode sp = PublishModeHost ∨ PublishedPort sp ≠ 0 → r = sp) ∧
  (PublishMode sp = PublishModeIngress → PublishedPort r ≠ 0).

Definition admin30001 : PortConfig := set_PublishedPort admin 30001.

Definition web30000 : PortConfig := set_PublishedPort web 30000.

(** A spec with a dynamic, a fixed and a host-mode descriptor, and the
    proposal that [Allocate] returns for it on a fresh endpoint and an empty
    allocator. *)
Definition mixed_spec : EndpointSpec :=
  {| SpecPorts := [web; admin8080; host8080] |}.

Definition mixed_proposal : proposal :=
  {| ports := Some [web30000; admin8080; host8080];
     allocate := {[(ProtocolTCP, 8080); (ProtocolTCP, 30000)]};
     deallocate := ∅ |}.

(** A second spec, and its proposal once [mixed_proposal] is committed. *)
Definition second_spec : EndpointSpec := {| SpecPorts := [web] |}.

Definition second_proposal : proposal :=
  {| ports := Some [set_PublishedPort web 30001];
     allocate := {[(ProtocolTCP, 30001)]};
     deallocate := ∅ |}.

(** The endpoint once the result of [mixed_proposal] is written to it, and
    the allocator after [mixed_proposal] and then the proposal of
    [Deallocate] for that endpoint are committed to an empty allocator. *)
Definition mixed_endpoint : Endpoint :=
  {| Spec := Some mixed_spec; Ports := Proposal_Ports mixed_proposal |}.

Definition round_trip_state : allocator :=
  exec (Commit elements_order (Deallocate mixed_endpoint))
       (exec (Commit elements_order mixed_proposal) NewAllocator).

(** Two descriptors that ask for TCP port 9000, and one that asks for TCP
    port 8080. *)
Definition web9000 : PortConfig := set_PublishedPort web 9000.

Definition admin9000 : PortConfig := set_PublishedPort admin 9000.

Definition other8080 : PortConfig :=
  {| Name := "other"; Protocol := ProtocolTCP; TargetPort := 82;
     PublishedPort := 8080; PublishMode := PublishModeIngress |}.

(** * Proofs *)

(** ** The monad *)

Lemma read_only_ret {A} (a : A) : read_only (ret a).
Proof. done. Qed.

Lemma read_only_raise {A} (e : error) : read_only (@raise A e).
Proof. done. Qed.

Lemma read_only_lift {A} (r : result A) : read_only (lift r).
Proof. done. Qed.

Lemma read_only_in_use (p : port) : read_only (in_use p).
Proof. done. Qed.

Lemma read_only_bind {A B} (m : M A) (f : A -> M B) :
  read_only m -> (forall a, read_only (f a)) -> read_only (bind m f).
Proof.
  intros Hm Hf pa. specialize (Hm pa). unfold exec, bind in *.
  destruct (m pa) as [[a|e] pa']; simpl in *; subst; [apply Hf | done].
Qed.

Lemma run_bind {A B} (m : M A) (f : A -> M B) (pa : allocator) :
  read_only m ->
  run (bind m f) pa = match run m pa with
                      | Ok a => run (f a) pa
                      | Err e => Err e
                      end.
Proof.
  intros Hm. specialize (Hm pa). unfold run, exec, bind in *.
  destruct (m pa) as [[a|e] pa']; simpl in *; by subst.
Qed.

Lemma run_exec {A} (m : M A) (pa : allocator) : m pa = (run m pa, exec m pa).
Proof. unfold run, exec. by destruct (m pa). Qed.

Create HintDb ro.

#[local] Hint Resolve read_only_ret read_only_raise read_only_lift
  read_only_in_use read_only_bind : ro.

(** ** Allocate never writes the allocator *)

Lemma read_only_fixed_pass d finalPorts a : read_only (fixed_pass d finalPorts a).
Proof.
  revert a. induction finalPorts as [|p rest IH]; intros a; simpl; [auto with ro|].
  destruct (_ || _); [done|].
  apply read_only_bind; [auto with ro|]. intros ok.
  destruct (_ && _); [auto with ro|].
  case_bool_decide; auto with ro.
Qed.

Lemma read_only_scan proto a i n : read_only (scan proto a i n).
Proof.
  revert i. induction n as [|n IH]; intros i; simpl; [auto with ro|].
  apply read_only_bind; [auto with ro|]. intros ok.
  destruct (_ && _); auto with ro.
Qed.

Lemma read_only_choose_port o k proto d a : read_only (choose_port o k proto d a).
Proof.
  apply read_only_bind; [apply read_only_scan|]. intros [i|]; auto with ro.
Qed.

Lemma read_only_dynamic_pass o d k finalPorts a :
  read_only (dynamic_pass o d k finalPorts a).
Proof.
  revert k a. induction finalPorts as [|p rest IH]; intros k a; simpl; [auto with ro|].
  destruct (_ || _).
  - apply read_only_bind; [done|]. auto with ro.
  - apply read_only_bind; [apply read_only_choose_port|]. intros [i|]; [|auto with ro].
    apply read_only_bind; [done|]. auto with ro.
Qed.

#[local] Hint Resolve read_only_fixed_pass read_only_scan read_only_choose_port
  read_only_dynamic_pass : ro.

Lemma read_only_Allocate o endpoint spec : read_only (Allocate o endpoint spec).
Proof.
  unfold Allocate.
  apply read_only_bind; [auto with ro|]. intros finalPorts.
  apply read_only_bind; [auto with ro|]. intros a.
  apply read_only_bind; auto with ro.
Qed.

(** ** IsNoop and Commit *)

Lemma range_order_set (o : map_order) (k : nat) (m : gset port) :
  list_to_set (range_order o k m) = m.
Proof. rewrite (range_order_perm o k m). apply list_to_set_elements_L. Qed.

Lemma elem_of_range_order (o : map_order) (k : nat) (m : gset port) (p : port) :
  p ∈ range_order o k m <-> p ∈ m.
Proof. rewrite (range_order_perm o k m). apply elem_of_elements. Qed.

Lemma IsNoop_true o prop :
  IsNoop o prop = true <-> allocate prop = deallocate prop.
Proof.
  unfold IsNoop. split.
  - destruct (size (allocate prop) =? size (deallocate prop))%nat eqn:Hsize;
      simpl; [|done].
    apply Nat.eqb_eq in Hsize. intros Hall.
    apply set_subseteq_size_eq; [|lia].
    intros p Hp. apply Is_true_true_2, forallb_True in Hall.
    rewrite Forall_forall in Hall.
    apply (bool_decide_unpack _), (Hall p), elem_of_range_order, Hp.
  - intros Heq. rewrite Heq, Nat.eqb_refl. simpl.
    apply Is_true_true_1, forallb_True, Forall_forall.
    intros p Hp. apply bool_decide_pack. by apply elem_of_range_order in Hp.
Qed.

Lemma exec_delete_each ps pa :
  exec (delete_each ps) pa = {| a_ports := a_ports pa ∖ list_to_set ps |}.
Proof.
  revert pa. induction ps as [|p rest IH]; intros [s]; simpl.
  - unfold exec. simpl. f_equal. set_solver.
  - unfold exec, bind, delete_port in *. simpl. rewrite IH. simpl.
    f_equal. set_solver.
Qed.

Lemma exec_insert_each ps pa :
  exec (insert_each ps) pa = {| a_ports := a_ports pa ∪ list_to_set ps |}.
Proof.
  revert pa. induction ps as [|p rest IH]; intros [s]; simpl.
  - unfold exec. simpl. f_equal. set_solver.
  - unfold exec, bind, insert_port in *. simpl. rewrite IH. simpl.
    f_equal. set_solver.
Qed.

Lemma run_delete_each ps pa : run (delete_each ps) pa = Ok tt.
Proof.
  revert pa. induction ps as [|p rest IH]; intros pa; [done|].
  unfold run, bind, delete_port in *. simpl. apply IH.
Qed.

Lemma run_insert_each ps pa : run (insert_each ps) pa = Ok tt.
Proof.
  revert pa. induction ps as [|p rest IH]; intros pa; [done|].
  unfold run, bind, insert_port in *. simpl. apply IH.
Qed.

(** What [Commit] leaves in the allocator, and that it returns. *)
Lemma Commit_spec o prop pa :
  Commit o prop pa =
    (Ok tt,
     if IsNoop o prop then pa
     else {| a_ports := (a_ports pa ∖ deallocate prop) ∪ allocate prop |}).
Proof.
  unfold Commit. destruct (IsNoop o prop); [done|].
  unfold bind. rewrite (run_exec (delete_each _) pa).
  rewrite run_delete_each, exec_delete_each.
  rewrite (run_exec (insert_each _) _).
  rewrite run_insert_each, exec_insert_each. simpl.
  by rewrite !range_order_set.
Qed.

Lemma mark_ports_set (ps : list PortConfig) (m : gset port) :
  mark_ports ps m =
    list_to_set (port_of <$> filter (fun p => PublishMode p ≠ PublishModeHost) ps) ∪ m.
Proof.
  revert m. induction ps as [|p rest IH]; intros m; simpl.
  - set_solver.
  - unfold is_host. rewrite filter_cons.
    case_bool_decide as Hmode; destruct (decide _) as [Hne|Hne]; try done;
      rewrite IH; simpl; set_solver.
Qed.

(** [Restore] returns and adds to the allocator the keys of the realized
    ports, not in host mode, of all the endpoints. *)
Lemma Restore_spec (o : map_order) (endpoints : list Endpoint) (pa : allocator) :
  Restore o endpoints pa =
    (Ok tt, {| a_ports := a_ports pa ∪ mark_endpoints endpoints ∅ |}).
Proof.
  unfold Restore. rewrite Commit_spec. f_equal.
  destruct (IsNoop o _) eqn:Hnoop; simpl.
  - apply IsNoop_true in Hnoop. simpl in Hnoop. rewrite Hnoop.
    destruct pa as [s]. simpl. f_equal. set_solver.
  - f_equal. set_solver.
Qed.

(** ** Claims on the allocator state *)

(** C1: whatever [Allocate] returns, a proposal or an error, the allocator
    has after the call the set of reserved keys it had before; the set
    changes in [Commit] alone, which either leaves it (a no-op proposal) or
    removes the keys to release and then adds the keys to reserve. *)
Theorem Allocate_leaves_allocator (o : map_order) (endpoint : Endpoint)
    (spec : option EndpointSpec) (pa : allocator) (prop : proposal) :
  exec (Allocate o endpoint spec) pa = pa ∧
  a_ports (exec (Commit o prop) pa) =
    if IsNoop o prop then a_ports pa
    else (a_ports pa ∖ deallocate prop) ∪ allocate prop.
Proof.
  split; [apply read_only_Allocate|].
  unfold exec. rewrite Commit_spec. simpl. by destruct (IsNoop o prop).
Qed.

(** C10: with an absent spec [Allocate] returns, for every endpoint and
    allocator, a proposal with no result port, nothing to reserve and, to
    release, the keys of the realized ports that are not in host mode; its
    [Ports], its two sets, [IsNoop] and [Commit] are those of the proposal
    of [Deallocate]. *)
Theorem Allocate_absent_spec (o : map_order) (endpoint : Endpoint) (pa : allocator) :
  ∃ prop,
    Allocate o endpoint None pa = (Ok prop, pa) ∧
    Proposal_Ports prop = [] ∧
    allocate prop = ∅ ∧
    deallocate prop =
      list_to_set (port_of <$>
        filter (fun p => PublishMode p ≠ PublishModeHost) (Ports endpoint)) ∧
    Proposal_Ports prop = Proposal_Ports (Deallocate endpoint) ∧
    allocate prop = allocate (Deallocate endpoint) ∧
    deallocate prop = deallocate (Deallocate endpoint) ∧
    IsNoop o prop = IsNoop o (Deallocate endpoint) ∧
    ∀ pa', Commit o prop pa' = Commit o (Deallocate endpoint) pa'.
Proof.
  eexists. split; [reflexivity|]. simpl.
  repeat split; try done.
  rewrite mark_ports_set. set_solver.
Qed.

(** ** The dynamic range *)

Lemma scan_spec (proto : PortConfig_Protocol) (a : gset port) (n : nat) (i0 : N)
    (pa : allocator) :
  ∃ r, scan proto a i0 n pa = (Ok r, pa) ∧
    match r with
    | Some i =>
        i0 ≤ i ∧ i < i0 + N.of_nat n ∧ free pa a (proto, i) ∧
        ∀ j, i0 ≤ j → j < i → ¬ free pa a (proto, j)
    | None => ∀ j, i0 ≤ j → j < i0 + N.of_nat n → ¬ free pa a (proto, j)
    end.
Proof.
  revert i0. induction n as [|n IH]; intros i0.
  - exists None. split; [done|]. intros j ? ?. lia.
  - rewrite Nat2N.inj_succ. simpl scan. unfold bind, in_use at 1. cbv beta.
    case_bool_decide as Hpa; case_bool_decide as Ha; simpl.
    4: { exists (Some i0). split; [done|].
         split_and!; [lia|lia|done|]. intros j ? ?. lia. }
    all: destruct (IH (i0 + 1)) as (r & -> & Hr); exists r; split; [done|].
    all: assert (¬ free pa a (proto, i0)) as Hnot by (by intros [? ?]).
    all: destruct r as [i|].
    all: try (destruct Hr as (? & ? & ? & Hlt); split_and!; [lia|lia|done|];
              intros j ? ?; destruct (decide (j = i0)) as [->|]; [done|];
              apply Hlt; lia).
    all: intros j ? ?; destruct (decide (j = i0)) as [->|]; [done|];
         apply Hr; lia.
Qed.

Lemma reusable_spec (proto : PortConfig_Protocol) (a : gset port) (key : port) :
  reusable proto a key = true ↔
    key.1 = proto ∧ in_dynamic_range key.2 ∧ key ∉ a.
Proof.
  unfold reusable, in_dynamic_range.
  rewrite !andb_true_iff, negb_true_iff, bool_decide_eq_true,
    bool_decide_eq_false, !N.leb_le. tauto.
Qed.

Lemma choose_port_spec (o : map_order) (k : nat) (proto : PortConfig_Protocol)
    (d a : gset port) (pa : allocator) :
  ∃ r, choose_port o k proto d a pa = (Ok r, pa) ∧
    match r with
    | Some i =>
        first_free pa a proto i ∨
        (exhausted pa a proto ∧ can_reuse proto d a (proto, i))
    | None => exhausted pa a proto ∧ ∀ key, ¬ can_reuse proto d a key
    end.
Proof.
  unfold choose_port, bind.
  destruct (scan_spec proto a dynamic_count DynamicPortStart pa) as (r & -> & Hr).
  assert (DynamicPortStart + N.of_nat dynamic_count = DynamicPortEnd + 1) as Hend
    by (by vm_compute).
  destruct r as [i|].
  - exists (Some i). split; [done|]. left.
    destruct Hr as (? & ? & ? & Hlt).
    unfold first_free, in_dynamic_range. split_and!; [done|lia|done|].
    intros j [? ?] ?. by apply Hlt.
  - assert (exhausted pa a proto) as Hex.
    { intros j [? ?]. apply Hr; [done|lia]. }
    destruct (List.find _ _) as [key|] eqn:Hfind.
    + exists (Some key.2). split; [done|]. right. split; [done|].
      apply find_some in Hfind as [Hin Hre].
      apply list_elem_of_In, elem_of_range_order in Hin.
      apply reusable_spec in Hre as (Hproto & ? & ?).
      destruct key as [kp kn]; simpl in *; subst kp. by unfold can_reuse.
    + exists None. split; [done|]. split; [done|].
      intros key (Hin & ? & ? & ?).
      apply (elem_of_range_order o k), list_elem_of_In in Hin.
      pose proof (find_none _ _ Hfind key Hin) as Hre.
      assert (reusable proto a key = true) by (by apply reusable_spec).
      congruence.
Qed.

(** ** The two allocation passes *)

Lemma is_host_false (p : PortConfig) :
  is_host p = false ↔ PublishMode p = PublishModeIngress.
Proof.
  unfold is_host. rewrite bool_decide_eq_false. by destruct (PublishMode p).
Qed.

Lemma is_fixed_true (p : PortConfig) :
  is_fixed p = true ↔ PublishedPort p ≠ 0 ∧ PublishMode p = PublishModeIngress.
Proof.
  unfold is_fixed. rewrite negb_true_iff, orb_false_iff, N.eqb_neq.
  by rewrite is_host_false.
Qed.

Lemma is_dynamic_true (p : PortConfig) :
  is_dynamic p = true ↔ PublishedPort p = 0 ∧ PublishMode p = PublishModeIngress.
Proof.
  unfold is_dynamic.
  rewrite negb_true_iff, orb_false_iff, negb_false_iff, N.eqb_eq.
  by rewrite is_host_false.
Qed.

Lemma fixed_keys_cons (p : PortConfig) (rest : list PortConfig) :
  fixed_keys (p :: rest) =
    if is_fixed p then port_of p :: fixed_keys rest else fixed_keys rest.
Proof. unfold fixed_keys. simpl. by destruct (is_fixed p). Qed.

Lemma fixed_pass_cons (d : gset port) (p : PortConfig) (rest : list PortConfig)
    (a : gset port) (pa : allocator) :
  fixed_pass d (p :: rest) a pa =
    if is_fixed p then
      if bool_decide (port_of p ∈ a_ports pa) && negb (bool_decide (port_of p ∈ d))
      then (Err (ErrResourceInUse (port_of p)), pa)
      else if bool_decide (port_of p ∈ a)
      then (Err (ErrInvalidSpec (AssignedMoreThanOnce (port_of p))), pa)
      else fixed_pass d rest ({[port_of p]} ∪ a) pa
    else fixed_pass d rest a pa.
Proof.
  simpl. unfold is_fixed. destruct (_ || _); simpl; [done|].
  unfold bind, in_use. destruct (_ && _); [done|]. by destruct (bool_decide _).
Qed.

Lemma fixed_pass_spec (d : gset port) (ps : list PortConfig) (a : gset port)
    (pa : allocator) :
  match fixed_pass d ps a pa with
  | (Ok a', pa') =>
      pa' = pa ∧ a' = list_to_set (fixed_keys ps) ∪ a ∧ NoDup (fixed_keys ps) ∧
      ∀ key, key ∈ fixed_keys ps →
        (key ∉ a) ∧ (key ∈ a_ports pa → key ∈ d)
  | (Err e, pa') =>
      pa' = pa ∧
      ((∃ key, e = ErrResourceInUse key ∧ key ∈ fixed_keys ps ∧
               key ∈ a_ports pa ∧ key ∉ d) ∨
       (∃ key, e = ErrInvalidSpec (AssignedMoreThanOnce key) ∧
               key ∈ fixed_keys ps ∧ (key ∈ a ∨ ¬ NoDup (fixed_keys ps))))
  end.
Proof.
  revert a. induction ps as [|p rest IH]; intros a.
  - simpl. split_and!; [done|set_solver|constructor|]. intros key Hin.
    by apply elem_of_nil in Hin.
  - rewrite fixed_pass_cons, fixed_keys_cons.
    destruct (is_fixed p); [|apply IH].
    destruct (_ && _) eqn:Huse.
    { apply andb_true_iff in Huse as [Hpa Hd].
      apply bool_decide_eq_true in Hpa. apply negb_true_iff in Hd.
      apply bool_decide_eq_false in Hd.
      split; [done|]. left. exists (port_of p). set_solver. }
    assert (port_of p ∈ a_ports pa → port_of p ∈ d) as Hfree.
    { intros Hpa. apply andb_false_iff in Huse as [Hn|Hn].
      - by apply bool_decide_eq_false in Hn.
      - apply negb_false_iff in Hn. by apply bool_decide_eq_true in Hn. }
    clear Huse. case_bool_decide as Ha.
    { split; [done|]. right. exists (port_of p). set_solver. }
    specialize (IH ({[port_of p]} ∪ a)).
    destruct (fixed_pass _ _ _ _) as [[a'|e] pa'].
    + destruct IH as (-> & -> & Hnd & Hall). split_and!; [done|set_solver| |].
      * constructor; [|done]. intros Hin. apply Hall in Hin. set_solver.
      * intros key [->|Hin]%elem_of_cons; [done|].
        apply Hall in Hin. set_solver.
    + destruct IH as (-> & [(key & -> & ? & ? & ?)|(key & -> & ? & Hor)]);
        (split; [done|]).
      * left. exists key. set_solver.
      * right. exists key. split_and!; [done|set_solver|].
        destruct Hor as [[->%elem_of_singleton|?]%elem_of_union|Hnd].
        -- right. intros Hnd. by inversion Hnd.
        -- by left.
        -- right. intros Hnd'. by inversion Hnd'.
Qed.

Lemma dynamic_pass_cons (o : map_order) (d : gset port) (k : nat) (p : PortConfig)
    (rest : list PortConfig) (a : gset port) (pa : allocator) :
  dynamic_pass o d k (p :: rest) a pa =
    if is_dynamic p then
      match choose_port o k (Protocol p) d a pa with
      | (Ok (Some i), pa') =>
          (let* r := dynamic_pass o d (S k) rest ({[(Protocol p, i)]} ∪ a) in
           ret (set_PublishedPort p i :: r.1, r.2)) pa'
      | (Ok None, pa') => (Err (ErrResourceExhausted (Protocol p)), pa')
      | (Err e, pa') => (Err e, pa')
      end
    else (let* r := dynamic_pass o d (S k) rest a in ret (p :: r.1, r.2)) pa.
Proof.
  simpl. unfold is_dynamic. destruct (_ || _); simpl; [done|].
  unfold bind at 1. destruct (choose_port _ _ _ _ _ _) as [[[i|]|e] pa']; done.
Qed.

Lemma dynamic_pass_spec (o : map_order) (d : gset port) (ps : list PortConfig)
    (k : nat) (a : gset port) (pa : allocator) :
  match dynamic_pass o d k ps a pa with
  | (Ok r, pa') =>
      pa' = pa ∧ Forall2 (assigned r.2) ps r.1 ∧ a ⊆ r.2 ∧
      ∀ key, key ∈ r.2 → key ∈ a ∨ key ∉ a_ports pa ∨ key ∈ d
  | (Err e, pa') => pa' = pa ∧ ∃ proto, e = ErrResourceExhausted proto
  end.
Proof.
  revert k a. induction ps as [|p rest IH]; intros k a.
  - simpl. split_and!; [done|constructor|done|]. intros key ?. by left.
  - rewrite dynamic_pass_cons. destruct (is_dynamic p) eqn:Hdyn.
    + destruct (choose_port_spec o k (Protocol p) d a pa) as (c & -> & Hc).
      destruct c as [i|]; [|split; [done|by eexists]].
      unfold bind. specialize (IH (S k) ({[(Protocol p, i)]} ∪ a)).
      destruct (dynamic_pass _ _ _ _ _ _) as [[[res a']|e] pa']; [|done].
      destruct IH as (-> & Hres & Hsub & Hnew). simpl in *.
      assert (in_dynamic_range i ∧
              ((Protocol p, i) ∉ a_ports pa ∨ (Protocol p, i) ∈ d)) as [Hi Hkey].
      { destruct Hc as [(? & [? ?] & _)|(_ & ? & _ & ? & _)]; auto. }
      split_and!; [done| |set_solver|].
      * constructor; [|done]. unfold assigned. rewrite Hdyn. simpl.
        split_and!; [done..|]. apply Hsub. set_solver.
      * intros key Hin. destruct (Hnew key Hin) as [Hor|Hor]; [|by right].
        apply elem_of_union in Hor as [->%elem_of_singleton|?]; [by right|by left].
    + unfold bind. specialize (IH (S k) a).
      destruct (dynamic_pass _ _ _ _ _ _) as [[[res a']|e] pa']; [|done].
      destruct IH as (-> & Hres & Hsub & Hnew). simpl in *.
      split_and!; [done| |done..].
      constructor; [|done]. unfold assigned. by rewrite Hdyn.
Qed.

(** What a proposal returned by [Allocate] consists of. *)
Lemma Allocate_Ok (o : map_order) (endpoint : Endpoint) (spec : option EndpointSpec)
    (pa : allocator) (prop : proposal) :
  run (Allocate o endpoint spec) pa = Ok prop →
  ∃ finalPorts,
    recover_ports endpoint (SpecPorts (default {| SpecPorts := [] |} spec))
      = Ok finalPorts ∧
    NoDup (fixed_keys finalPorts) ∧
    Forall2 (assigned (allocate prop)) finalPorts (Proposal_Ports prop) ∧
    deallocate prop = mark_ports (Ports endpoint) ∅ ∧
    list_to_set (fixed_keys finalPorts) ⊆ allocate prop ∧
    ∀ key, key ∈ allocate prop → key ∉ a_ports pa ∨ key ∈ deallocate prop.
Proof.
  unfold run, Allocate, bind, lift.
  replace (match spec with Some s => s | None => {| SpecPorts := [] |} end)
    with (default {| SpecPorts := [] |} spec) by (by destruct spec).
  destruct (recover_ports _ _) as [finalPorts|e]; [|done].
  pose proof (fixed_pass_spec (mark_ports (Ports endpoint) ∅) finalPorts ∅ pa) as Hfix.
  destruct (fixed_pass _ _ _ _) as [[a|e] pa']; [|done].
  destruct Hfix as (-> & -> & Hnd & Hall).
  pose proof (dynamic_pass_spec o (mark_ports (Ports endpoint) ∅) finalPorts 0
                (list_to_set (fixed_keys finalPorts) ∪ ∅) pa) as Hdyn.
  destruct (dynamic_pass _ _ _ _ _ _) as [[r|e] pa']; [|done].
  destruct Hdyn as (-> & Hres & Hsub & Hnew). simpl.
  intros [= <-]. exists finalPorts. simpl.
  split_and!; [done..|set_solver|].
  intros key Hin. destruct (Hnew key Hin) as [Hor|Hor]; [|done].
  apply elem_of_union in Hor as [Hor|?]; [|set_solver].
  apply elem_of_list_to_set, Hall in Hor as [_ Hor].
  destruct (decide (key ∈ a_ports pa)); [right|left]; auto.
Qed.

(** ** The first loop *)

Lemma recover_ports_Ok (endpoint : Endpoint) (specs : list PortConfig) :
  Forall in_master_range specs →
  recover_ports endpoint specs = Ok (final_port endpoint <$> specs).
Proof.
  induction 1 as [|spec rest [Hp Ht] _ IH]; [done|]. simpl.
  apply N.ltb_ge in Hp, Ht. by rewrite Hp, Ht, IH.
Qed.

Lemma recover_ports_Err (endpoint : Endpoint) (specs : list PortConfig) :
  ¬ Forall in_master_range specs →
  ∃ e, recover_ports endpoint specs = Err e ∧ out_of_range_error e.
Proof.
  induction specs as [|spec rest IH]; intros Hnot; [by destruct Hnot|]. simpl.
  destruct (masterPortEnd <? PublishedPort spec) eqn:Hp; [by repeat eexists; left|].
  destruct (masterPortEnd <? TargetPort spec) eqn:Ht; [by repeat eexists; right|].
  apply N.ltb_ge in Hp, Ht.
  destruct IH as (e & -> & He); [|by exists e].
  intros Hrest. apply Hnot. by constructor.
Qed.

Lemma recover_ports_inv (endpoint : Endpoint) (specs finalPorts : list PortConfig) :
  recover_ports endpoint specs = Ok finalPorts →
  Forall in_master_range specs ∧ finalPorts = final_port endpoint <$> specs.
Proof.
  intros Hrec. destruct (decide (Forall in_master_range specs)) as [Hall|Hnot].
  - rewrite recover_ports_Ok in Hrec by done. by injection Hrec as <-.
  - apply (recover_ports_Err endpoint) in Hnot as (e & He & _). congruence.
Qed.

(** The errors of [Allocate], by the loop that returns them. *)
Lemma Allocate_Err (o : map_order) (endpoint : Endpoint) (spec : option EndpointSpec)
    (pa : allocator) (e : error) :
  run (Allocate o endpoint spec) pa = Err e →
  let specs := SpecPorts (default {| SpecPorts := [] |} spec) in
  let d := mark_ports (Ports endpoint) ∅ in
  recover_ports endpoint specs = Err e ∨
  ∃ finalPorts,
    recover_ports endpoint specs = Ok finalPorts ∧
    ((∃ key, e = ErrResourceInUse key ∧ key ∈ fixed_keys finalPorts ∧
             key ∈ a_ports pa ∧ key ∉ d) ∨
     (∃ key, e = ErrInvalidSpec (AssignedMoreThanOnce key) ∧
             key ∈ fixed_keys finalPorts ∧ ¬ NoDup (fixed_keys finalPorts)) ∨
     (∃ proto, e = ErrResourceExhausted proto ∧ NoDup (fixed_keys finalPorts) ∧
               ∀ key, key ∈ fixed_keys finalPorts → key ∈ a_ports pa → key ∈ d)).
Proof.
  unfold run, Allocate, bind, lift.
  replace (match spec with Some s => s | None => {| SpecPorts := [] |} end)
    with (default {| SpecPorts := [] |} spec) by (by destruct spec).
  simpl. destruct (recover_ports _ _) as [finalPorts|e']; [|intros [= ->]; by left].
  pose proof (fixed_pass_spec (mark_ports (Ports endpoint) ∅) finalPorts ∅ pa) as Hfix.
  destruct (fixed_pass _ _ _ _) as [[a|e'] pa'].
  - destruct Hfix as (-> & -> & Hnd & Hall).
    pose proof (dynamic_pass_spec o (mark_ports (Ports endpoint) ∅) finalPorts 0
                  (list_to_set (fixed_keys finalPorts) ∪ ∅) pa) as Hdyn.
    destruct (dynamic_pass _ _ _ _ _ _) as [[r|e'] pa']; [done|].
    destruct Hdyn as (-> & proto & ->). simpl. intros [= <-].
    right. exists finalPorts. split; [done|]. right. right. exists proto.
    split_and!; [done..|]. intros key Hin. by apply Hall.
  - simpl. intros [= ->]. right. exists finalPorts. split; [done|].
    destruct Hfix as (-> & [(key & -> & ? & ? & ?)|(key & -> & ? & [?|?])]).
    + left. by exists key.
    + set_solver.
    + right. left. by exists key.
Qed.

Lemma first_free_unique (pa : allocator) (a : gset port) (proto : PortConfig_Protocol)
    (i j : N) :
  first_free pa a proto i → first_free pa a proto j → i = j.
Proof.
  intros (Hi & Hfi & Hmin_i) (Hj & Hfj & Hmin_j).
  destruct (N.lt_trichotomy i j) as [Hlt|[->|Hlt]]; [|done|].
  - by destruct (Hmin_j i).
  - by destruct (Hmin_i j).
Qed.

Lemma first_free_not_exhausted (pa : allocator) (a : gset port)
    (proto : PortConfig_Protocol) (i : N) :
  first_free pa a proto i → ¬ exhausted pa a proto.
Proof. intros (Hi & Hfree & _) Hex. by apply (Hex i). Qed.

(** ** Examples of descriptors *)

(** ** The second pass *)

(** C2: when the second pass reaches a descriptor [p] in ingress mode whose
    published port is still 0, with reserve-set [a]: if [i] is the first port
    of [30000, 32767], in ascending order, whose key is neither in the
    allocator nor in [a], then [i] is assigned to [p] and its key added to
    [a]; if the range has no such port and the release-set has a key of the
    protocol of [p], in the range and not in [a], such a key is taken; if
    there is neither, the call fails with ResourceExhausted.  So in a
    proposal that [Allocate] returns every descriptor the second pass
    assigned has its published port in [30000, 32767], and is otherwise the
    descriptor of the first loop. *)
Theorem dynamic_pass_descriptor (o : map_order) (pa : allocator) :
  (∀ (d : gset port) (k : nat) (p : PortConfig) (rest : list PortConfig)
     (a : gset port),
     PublishedPort p = 0 → PublishMode p = PublishModeIngress →
     (∀ i, first_free pa a (Protocol p) i →
        dynamic_pass o d k (p :: rest) a pa =
          (let* r := dynamic_pass o d (S k) rest ({[(Protocol p, i)]} ∪ a) in
           ret (set_PublishedPort p i :: r.1, r.2)) pa) ∧
     (exhausted pa a (Protocol p) →
      (∃ key, can_reuse (Protocol p) d a key) →
      ∃ i, can_reuse (Protocol p) d a (Protocol p, i) ∧
        dynamic_pass o d k (p :: rest) a pa =
          (let* r := dynamic_pass o d (S k) rest ({[(Protocol p, i)]} ∪ a) in
           ret (set_PublishedPort p i :: r.1, r.2)) pa) ∧
     (exhausted pa a (Protocol p) →
      (∀ key, ¬ can_reuse (Protocol p) d a key) →
      dynamic_pass o d k (p :: rest) a pa =
        (Err (ErrResourceExhausted (Protocol p)), pa))) ∧
  (∀ (endpoint : Endpoint) (spec : option EndpointSpec) (prop : proposal)
     (n : nat) (sp : PortConfig),
     run (Allocate o endpoint spec) pa = Ok prop →
     SpecPorts (default {| SpecPorts := [] |} spec) !! n = Some sp →
     PublishedPort (final_port endpoint sp) = 0 →
     PublishMode (final_port endpoint sp) = PublishModeIngress →
     ∃ r, Proposal_Ports prop !! n = Some r ∧
          r = set_PublishedPort (final_port endpoint sp) (PublishedPort r) ∧
          DynamicPortStart ≤ PublishedPort r ∧ PublishedPort r ≤ DynamicPortEnd ∧
          port_of r ∈ allocate prop).
Proof.
  split.
  - intros d k p rest a Hzero Hmode.
    assert (is_dynamic p = true) as Hdyn by (by apply is_dynamic_true).
    rewrite dynamic_pass_cons, Hdyn.
    destruct (choose_port_spec o k (Protocol p) d a pa) as (c & -> & Hc).
    split_and!.
    + intros i Hi. destruct c as [j|].
      * destruct Hc as [Hj|[Hex _]].
        -- by rewrite (first_free_unique _ _ _ _ _ Hi Hj).
        -- by apply first_free_not_exhausted in Hi.
      * destruct Hc as [Hex _]. by apply first_free_not_exhausted in Hi.
    + intros Hex [key Hkey]. destruct c as [j|].
      * destruct Hc as [Hj|[_ Hre]].
        -- by apply first_free_not_exhausted in Hj.
        -- by exists j.
      * destruct Hc as [_ Hno]. by destruct (Hno key).
    + intros Hex Hno. destruct c as [j|]; [|done].
      destruct Hc as [Hj|[_ Hre]].
      * by apply first_free_not_exhausted in Hj.
      * by destruct (Hno (Protocol p, j)).
  - intros endpoint spec prop n sp Hrun Hsp Hzero Hmode.
    apply Allocate_Ok in Hrun as (finalPorts & Hrec & _ & Hres & _).
    apply recover_ports_inv in Hrec as [_ ->].
    assert ((final_port endpoint <$>
               SpecPorts (default {| SpecPorts := [] |} spec)) !! n
            = Some (final_port endpoint sp)) as Hfp
      by (by rewrite list_lookup_fmap, Hsp).
    destruct (Forall2_lookup_l _ _ _ _ _ Hres Hfp) as (r & Hr & Hassigned).
    exists r. split; [done|]. unfold assigned in Hassigned.
    rewrite (proj2 (is_dynamic_true _)) in Hassigned by done.
    by destruct Hassigned as (? & [? ?] & ?).
Qed.

Lemma full_tcp_exhausted (a : gset port) : exhausted full_tcp a ProtocolTCP.
Proof.
  intros j [Hlo Hhi] [Hfree _]. apply Hfree.
  change ((ProtocolTCP, j) ∈ (list_to_set tcp_dynamic_keys : gset port)).
  apply elem_of_list_to_set. unfold tcp_dynamic_keys. apply list_elem_of_fmap.
  unfold dynamic_count, DynamicPortStart, DynamicPortEnd in *.
  exists (N.to_nat (j - 30000)). split; [f_equal; lia|].
  apply elem_of_seq. lia.
Qed.

Lemma dynamic_pass_descriptor_witness :
  dynamic_pass elements_order ∅ 0 [web] ∅ NewAllocator =
    (Ok ([set_PublishedPort web 30000], {[(ProtocolTCP, 30000)]} ∪ ∅), NewAllocator) ∧
  (∃ i, can_reuse ProtocolTCP {[(ProtocolTCP, 30005)]} ∅ (ProtocolTCP, i) ∧
     dynamic_pass elements_order {[(ProtocolTCP, 30005)]} 0 [web] ∅ full_tcp =
       (Ok ([set_PublishedPort web i], {[(ProtocolTCP, i)]} ∪ ∅), full_tcp)) ∧
  dynamic_pass elements_order ∅ 0 [web] ∅ full_tcp =
    (Err (ErrResourceExhausted ProtocolTCP), full_tcp) ∧
  (∃ r, Proposal_Ports
          {| ports := Some [set_PublishedPort web 30000];
             allocate := {[(ProtocolTCP, 30000)]}; deallocate := ∅ |} !! 0%nat
        = Some r ∧
        r = set_PublishedPort web (PublishedPort r) ∧
        DynamicPortStart ≤ PublishedPort r ∧ PublishedPort r ≤ DynamicPortEnd ∧
        port_of r ∈ ({[(ProtocolTCP, 30000)]} : gset port)).
Proof.
  pose proof (dynamic_pass_descriptor elements_order NewAllocator) as [Hfree Hall].
  pose proof (dynamic_pass_descriptor elements_order full_tcp) as [Hfull _].
  assert (in_dynamic_range 30000 ∧ in_dynamic_range 30005) as [Hr0 Hr5]
    by (unfold in_dynamic_range, DynamicPortStart, DynamicPortEnd; lia).
  split_and!.
  - destruct (Hfree ∅ 0%nat web [] ∅ eq_refl eq_refl) as (Hfirst & _ & _).
    apply (Hfirst 30000). split_and!; [done| |].
    + split; apply not_elem_of_empty.
    + intros j [Hlo _] Hlt. unfold DynamicPortStart in Hlo. lia.
  - destruct (Hfull {[(ProtocolTCP, 30005)]} 0%nat web [] ∅ eq_refl eq_refl)
      as (_ & Hreuse & _).
    apply Hreuse; [apply full_tcp_exhausted|].
    exists (ProtocolTCP, 30005). unfold can_reuse. split_and!; [|done..|].
    + by apply elem_of_singleton.
    + apply not_elem_of_empty.
  - destruct (Hfull ∅ 0%nat web [] ∅ eq_refl eq_refl) as (_ & _ & Hnone).
    apply Hnone; [apply full_tcp_exhausted|].
    intros key (Hin & _). by apply not_elem_of_empty in Hin.
  - refine (Hall fresh_endpoint (Some {| SpecPorts := [web] |})
              {| ports := Some [set_PublishedPort web 30000];
                 allocate := {[(ProtocolTCP, 30000)]}; deallocate := ∅ |}
              0%nat web _ eq_refl eq_refl eq_refl).
    by vm_compute.
Defined.

(** ** The first pass *)

Lemma elem_of_fixed_keys (ps : list PortConfig) (key : port) :
  key ∈ fixed_keys ps ↔ ∃ p, p ∈ ps ∧ is_fixed p = true ∧ port_of p = key.
Proof.
  unfold fixed_keys. rewrite list_elem_of_fmap. split.
  - intros (p & -> & Hin). apply list_elem_of_In, filter_In in Hin as [Hin Hfix].
    exists p. by rewrite list_elem_of_In.
  - intros (p & Hin & Hfix & <-). exists p. split; [done|].
    apply list_elem_of_In, filter_In. by rewrite <- list_elem_of_In.
Qed.

Lemma fixed_pass_app (d : gset port) (pre ps : list PortConfig) (a : gset port)
    (pa : allocator) :
  fixed_pass d (pre ++ ps) a pa =
    match fixed_pass d pre a pa with
    | (Ok a', pa') => fixed_pass d ps a' pa'
    | (Err e, pa') => (Err e, pa')
    end.
Proof.
  revert a. induction pre as [|p rest IH]; intros a; [done|].
  rewrite <- app_comm_cons, !fixed_pass_cons.
  destruct (is_fixed p); [|apply IH].
  destruct (_ && _); [done|]. destruct (bool_decide _); [done|apply IH].
Qed.

(** C3, as the spec states it, fails: [other8080] is a result descriptor in
    ingress mode whose key, TCP 8080, is in the allocator and not in the
    release-set, yet the call does not fail with ResourceInUse: the pass
    meets TCP 9000 a second time first and returns InvalidSpec. *)
Lemma in_use_not_reached_counterexample :
  ¬ (other8080 ∈ [web9000; admin9000; other8080] →
     PublishedPort other8080 ≠ 0 →
     PublishMode other8080 = PublishModeIngress →
     port_of other8080 ∈ a_ports tcp8080_taken →
     port_of other8080 ∉ mark_ports (Ports fresh_endpoint) ∅ →
     ∃ key, run (Allocate elements_order fresh_endpoint
                   (Some {| SpecPorts := [web9000; admin9000; other8080] |}))
              tcp8080_taken
            = Err (ErrResourceInUse key)).
Proof.
  intros Hclaim. destruct Hclaim as [key Hkey].
  - apply (bool_decide_unpack _). by vm_compute.
  - done.
  - done.
  - apply (bool_decide_unpack _). by vm_compute.
  - apply (bool_decide_unpack _). by vm_compute.
  - vm_compute in Hkey. discriminate Hkey.
Qed.

Example claimed_twice_before_in_use :
  run (Allocate elements_order fresh_endpoint
         (Some {| SpecPorts := [web9000; admin9000; other8080] |})) tcp8080_taken
  = Err (ErrInvalidSpec (AssignedMoreThanOnce (ProtocolTCP, 9000))).
Proof. by vm_compute. Qed.

(** C3, amended: when the first pass reaches a descriptor [p] in ingress mode
    with a non-zero published port, no descriptor before it having failed,
    the call fails with ResourceInUse if the key of [p] is in the allocator
    and not in the release-set; if the key is in the release-set and not yet
    in the reserve-set, the pass adds it to the reserve-set and goes on.  For
    the whole call: a result descriptor with such a key in the allocator and
    not released makes [Allocate] fail, with ResourceInUse unless a key is
    first found claimed twice; in a proposal that [Allocate] returns every
    such descriptor is kept as it is, with its key in the reserve-set; and
    when the pass gets through the descriptors before [p], [Allocate] returns
    ResourceInUse for the key of [p]. *)
Theorem fixed_pass_descriptor (pa : allocator) :
  (∀ (d : gset port) (p : PortConfig) (rest : list PortConfig) (a : gset port),
     PublishedPort p ≠ 0 → PublishMode p = PublishModeIngress →
     (port_of p ∈ a_ports pa → port_of p ∉ d →
      fixed_pass d (p :: rest) a pa = (Err (ErrResourceInUse (port_of p)), pa)) ∧
     (port_of p ∈ d → port_of p ∉ a →
      fixed_pass d (p :: rest) a pa =
        fixed_pass d rest ({[port_of p]} ∪ a) pa)) ∧
  (∀ (o : map_order) (endpoint : Endpoint) (spec : option EndpointSpec)
     (finalPorts : list PortConfig) (p : PortConfig),
     recover_ports endpoint (SpecPorts (default {| SpecPorts := [] |} spec))
       = Ok finalPorts →
     p ∈ finalPorts →
     PublishedPort p ≠ 0 → PublishMode p = PublishModeIngress →
     (port_of p ∈ a_ports pa → port_of p ∉ mark_ports (Ports endpoint) ∅ →
      ∃ e, run (Allocate o endpoint spec) pa = Err e ∧
        ((∃ key, e = ErrResourceInUse key ∧ key ∈ a_ports pa ∧
                 key ∉ mark_ports (Ports endpoint) ∅) ∨
         (∃ key, e = ErrInvalidSpec (AssignedMoreThanOnce key) ∧
                 ¬ NoDup (fixed_keys finalPorts)))) ∧
     (∀ prop, run (Allocate o endpoint spec) pa = Ok prop →
        p ∈ Proposal_Ports prop ∧ port_of p ∈ allocate prop)) ∧
  (∀ (o : map_order) (endpoint : Endpoint) (spec : option EndpointSpec)
     (pre rest : list PortConfig) (p : PortConfig) (a : gset port),
     recover_ports endpoint (SpecPorts (default {| SpecPorts := [] |} spec))
       = Ok (pre ++ p :: rest) →
     fixed_pass (mark_ports (Ports endpoint) ∅) pre ∅ pa = (Ok a, pa) →
     PublishedPort p ≠ 0 → PublishMode p = PublishModeIngress →
     port_of p ∈ a_ports pa → port_of p ∉ mark_ports (Ports endpoint) ∅ →
     run (Allocate o endpoint spec) pa = Err (ErrResourceInUse (port_of p))).
Proof.
  split_and!.
  - intros d p rest a Hnz Hmode.
    assert (is_fixed p = true) as Hfix by (by apply is_fixed_true).
    rewrite fixed_pass_cons, Hfix. split.
    + intros Hpa Hd.
      by rewrite (bool_decide_eq_true_2 _ Hpa), (bool_decide_eq_false_2 _ Hd).
    + intros Hd Ha.
      rewrite (bool_decide_eq_true_2 _ Hd), (bool_decide_eq_false_2 _ Ha).
      by rewrite andb_false_r.
  - intros o endpoint spec finalPorts p Hrec Hin Hnz Hmode.
    assert (port_of p ∈ fixed_keys finalPorts) as Hkey.
    { apply elem_of_fixed_keys. exists p. by rewrite is_fixed_true. }
    split.
    + intros Hpa Hd.
      destruct (run (Allocate o endpoint spec) pa) as [prop|e] eqn:Hrun.
      * apply Allocate_Ok in Hrun as (fp & Hrec' & _ & _ & Hdeall & Hsub & Hnew).
        rewrite Hrec in Hrec'. injection Hrec' as <-.
        destruct (Hnew (port_of p)) as [?|?]; [|done|].
        -- apply Hsub. by apply elem_of_list_to_set.
        -- by rewrite Hdeall in *.
      * exists e. split; [done|].
        apply Allocate_Err in Hrun as [Hrun|(fp & Hrec' & Hkind)]; [congruence|].
        rewrite Hrec in Hrec'. injection Hrec' as <-.
        destruct Hkind as [(key & -> & _ & ? & ?)|[(key & -> & _ & ?)
                                                  |(proto & -> & _ & Hall)]].
        -- left. by exists key.
        -- right. by exists key.
        -- destruct Hd. by apply Hall.
    + intros prop Hrun.
      apply Allocate_Ok in Hrun as (fp & Hrec' & _ & Hres & _ & Hsub & _).
      rewrite Hrec in Hrec'. injection Hrec' as <-.
      split; [|by apply Hsub, elem_of_list_to_set].
      apply list_elem_of_lookup in Hin as [n Hn].
      destruct (Forall2_lookup_l _ _ _ _ _ Hres Hn) as (r & Hr & Hassigned).
      unfold assigned in Hassigned.
      assert (is_dynamic p = false) as Hdyn.
      { unfold is_dynamic. apply N.eqb_neq in Hnz. by rewrite Hnz. }
      rewrite Hdyn in Hassigned. subst r. by apply list_elem_of_lookup_2 in Hr.
  - intros o endpoint spec pre rest p a Hrec Hpre Hnz Hmode Hpa Hd.
    unfold run, Allocate, bind, lift.
    replace (match spec with Some s => s | None => {| SpecPorts := [] |} end)
      with (default {| SpecPorts := [] |} spec) by (by destruct spec).
    rewrite Hrec, fixed_pass_app, Hpre, fixed_pass_cons.
    rewrite (proj2 (is_fixed_true p)) by done.
    by rewrite (bool_decide_eq_true_2 _ Hpa), (bool_decide_eq_false_2 _ Hd).
Qed.

Lemma fixed_pass_descriptor_witness :
  fixed_pass ∅ [web8080] ∅ tcp8080_taken =
    (Err (ErrResourceInUse (ProtocolTCP, 8080)), tcp8080_taken) ∧
  fixed_pass {[(ProtocolTCP, 8080)]} [web8080] ∅ tcp8080_taken =
    (Ok ({[(ProtocolTCP, 8080)]} ∪ ∅), tcp8080_taken) ∧
  (∃ e, run (Allocate elements_order fresh_endpoint
               (Some {| SpecPorts := [web8080] |})) tcp8080_taken = Err e ∧
     ((∃ key, e = ErrResourceInUse key ∧ key ∈ a_ports tcp8080_taken ∧
              key ∉ mark_ports (Ports fresh_endpoint) ∅) ∨
      (∃ key, e = ErrInvalidSpec (AssignedMoreThanOnce key) ∧
              ¬ NoDup (fixed_keys [web8080])))) ∧
  (web8080 ∈ [web8080] ∧ port_of web8080 ∈ ({[(ProtocolTCP, 8080)]} : gset port)) ∧
  run (Allocate elements_order fresh_endpoint
         (Some {| SpecPorts := [admin; web8080] |})) tcp8080_taken
    = Err (ErrResourceInUse (port_of web8080)).
Proof.
  pose proof (fixed_pass_descriptor tcp8080_taken) as (Hstep & Hcall & Hreach).
  assert (PublishedPort web8080 ≠ 0) as Hnz by done.
  assert ((ProtocolTCP, 8080) ∈ ({[(ProtocolTCP, 8080)]} : gset port)) as Hin
    by (by apply elem_of_singleton).
  assert ((ProtocolTCP, 8080) ∉ (∅ : gset port)) as Hout
    by apply not_elem_of_empty.
  refine (conj _ (conj _ (conj _ (conj _ _)))).
  - destruct (Hstep ∅ web8080 [] ∅ Hnz eq_refl) as [Hinuse _].
    exact (Hinuse Hin Hout).
  - destruct (Hstep {[(ProtocolTCP, 8080)]} web8080 [] ∅ Hnz eq_refl) as [_ Hrel].
    exact (Hrel Hin Hout).
  - destruct (Hcall elements_order fresh_endpoint (Some {| SpecPorts := [web8080] |})
                [web8080] web8080 eq_refl (list_elem_of_here _ _) Hnz eq_refl)
      as [Hfail _].
    exact (Hfail Hin Hout).
  - destruct (Hcall elements_order
                {| Spec := Some {| SpecPorts := [web8080] |}; Ports := [web8080] |}
                (Some {| SpecPorts := [web8080] |})
                [web8080] web8080 eq_refl (list_elem_of_here _ _) Hnz eq_refl)
      as [_ Hok].
    refine (Hok {| ports := Some [web8080]; allocate := {[(ProtocolTCP, 8080)]};
                   deallocate := {[(ProtocolTCP, 8080)]} |} _).
    by vm_compute.
  - exact (Hreach elements_order fresh_endpoint
             (Some {| SpecPorts := [admin; web8080] |}) [admin] [] web8080 ∅
             eq_refl eq_refl Hnz eq_refl Hin Hout).
Defined.

(** ** Recovery of the ports assigned before *)

Lemma take_published_last (spec : PortConfig) (realized : list PortConfig)
    (final : PortConfig) :
  take_published spec realized final =
    match last (mostly_equal_ports spec realized) with
    | Some p => set_PublishedPort final (PublishedPort p)
    | None => final
    end.
Proof.
  revert final. induction realized as [|p rest IH]; intros final; [done|].
  unfold mostly_equal_ports in *. cbn [take_published List.filter].
  destruct (PortsMostlyEqual (Some spec) (Some p)); [|apply IH].
  rewrite IH, last_cons. by destruct (last _).
Qed.

Lemma take_published_twice (spec : PortConfig) (realized : list PortConfig)
    (final : PortConfig) :
  take_published spec realized (take_published spec realized final) =
    take_published spec realized final.
Proof. rewrite !take_published_last. by destruct (last _). Qed.

Lemma recover_published_exists (spec : PortConfig) (olds realized : list PortConfig)
    (final : PortConfig) :
  recover_published spec olds realized (take_published spec realized final) =
    take_published spec realized final ∧
  recover_published spec olds realized final =
    if existsb (fun o => portsEqual o spec) olds
    then take_published spec realized final
    else final.
Proof.
  revert final. induction olds as [|old rest IH]; intros final; [done|].
  cbn [recover_published existsb].
  destruct (portsEqual old spec); simpl.
  - rewrite take_published_twice. split; apply IH.
  - split; apply IH.
Qed.

Lemma set_PublishedPort_same (p : PortConfig) :
  set_PublishedPort p (PublishedPort p) = p.
Proof. by destruct p. Qed.

Lemma final_port_dynamic (endpoint : Endpoint) (spec : PortConfig) :
  PublishMode spec = PublishModeIngress → PublishedPort spec = 0 →
  final_port endpoint spec = set_PublishedPort spec (recovered_port endpoint spec).
Proof.
  intros Hmode Hzero. unfold final_port, recovered_port.
  assert (set_PublishedPort spec 0 = spec) as Hsame
    by (rewrite <- Hzero; apply set_PublishedPort_same).
  rewrite (proj2 (is_host_false spec) Hmode), (proj2 (N.eqb_eq _ _) Hzero). simpl.
  destruct (Spec endpoint) as [old|]; [|done].
  rewrite (proj2 (recover_published_exists _ _ _ _)).
  destruct (existsb _ _); [|done].
  rewrite take_published_last. by destruct (last _).
Qed.

Lemma portsEqual_fields (a b : PortConfig) :
  portsEqual a b = true ↔
    PortsMostlyEqual (Some a) (Some b) = true ∧ PublishedPort a = PublishedPort b.
Proof. unfold portsEqual. by rewrite andb_true_iff, bool_decide_eq_true. Qed.

(** C4, as the spec states it, fails: the stored spec of
    [fixed8080_endpoint] has a descriptor mostly equal to [web], and so have
    its realized ports, with published port 8080, yet the result descriptor
    keeps published port 0. *)
Lemma recover_mostly_equal_counterexample :
  ¬ (∀ finalPorts,
       recover_ports fixed8080_endpoint [web] = Ok finalPorts →
       (∃ old, old ∈ [web8080] ∧ PortsMostlyEqual (Some old) (Some web) = true) →
       ∃ r p, finalPorts !! 0%nat = Some r ∧ p ∈ Ports fixed8080_endpoint ∧
              PortsMostlyEqual (Some web) (Some p) = true ∧
              PublishedPort r = PublishedPort p).
Proof.
  intros Hclaim.
  destruct (Hclaim [web] eq_refl) as (r & p & Hr & Hp & _ & Heq).
  - exists web8080. split; [apply list_elem_of_here|done].
  - injection Hr as <-. apply list_elem_of_singleton in Hp as ->. done.
Qed.

(** C4, amended: for a descriptor [sp] of the spec in ingress mode with
    published port 0, in a spec that passes the range checks, the result
    descriptor at the same index is [sp] with the published port
    [recovered_port]: if the stored spec of the endpoint has a descriptor
    equal to [sp] in every field, which means mostly equal and with published
    port 0 too, it is the published port of the last realized port mostly
    equal to [sp]; it is 0 when there is no stored spec, no such descriptor in
    it, or no such realized port. *)
Theorem recover_ports_dynamic (endpoint : Endpoint) (specs finalPorts : list PortConfig)
    (n : nat) (sp : PortConfig) :
  recover_ports endpoint specs = Ok finalPorts →
  specs !! n = Some sp →
  PublishMode sp = PublishModeIngress →
  PublishedPort sp = 0 →
  finalPorts !! n = Some (set_PublishedPort sp (recovered_port endpoint sp)) ∧
  (∀ old, portsEqual old sp = true ↔
          PortsMostlyEqual (Some old) (Some sp) = true ∧ PublishedPort old = 0).
Proof.
  intros Hrec Hsp Hmode Hzero. split.
  - apply recover_ports_inv in Hrec as [_ ->].
    by rewrite list_lookup_fmap, Hsp, <- final_port_dynamic.
  - intros old. by rewrite portsEqual_fields, Hzero.
Qed.

Lemma recover_ports_dynamic_witness :
  [set_PublishedPort web 30000] !! 0%nat =
    Some (set_PublishedPort web (recovered_port allocated_endpoint web)) ∧
  (∀ old, portsEqual old web = true ↔
          PortsMostlyEqual (Some old) (Some web) = true ∧ PublishedPort old = 0).
Proof.
  exact (recover_ports_dynamic allocated_endpoint [web]
           [set_PublishedPort web 30000] 0 web eq_refl eq_refl eq_refl eq_refl).
Defined.

(** ** InvalidSpec *)

Lemma final_port_fixed (endpoint : Endpoint) (spec : PortConfig) :
  is_fixed spec = true → final_port endpoint spec = spec.
Proof.
  unfold is_fixed, final_port. intros [Hz Hh]%negb_true_iff%orb_false_iff.
  by rewrite Hh, Hz.
Qed.

(** A descriptor the first pass handles in the spec is the same descriptor
    in [finalPorts]; recovery can only add keys to those of the spec. *)
Lemma fixed_keys_final_ports (endpoint : Endpoint) (specs : list PortConfig) :
  fixed_keys specs `sublist_of` fixed_keys (final_port endpoint <$> specs).
Proof.
  induction specs as [|sp rest IH]; [done|].
  rewrite fmap_cons, !fixed_keys_cons.
  destruct (is_fixed sp) eqn:Hfix.
  - rewrite (final_port_fixed _ _ Hfix), Hfix. by apply sublist_skip.
  - destruct (is_fixed (final_port endpoint sp)); [by apply sublist_cons|done].
Qed.

(** C5, as the spec states it, fails: the two descriptors of the spec claim
    TCP port 8080, no port number is out of range, and [Allocate] returns
    ResourceInUse, not InvalidSpec, since another endpoint holds the port. *)
Lemma invalid_spec_iff_counterexample :
  ¬ ((∃ why, run (Allocate elements_order fresh_endpoint
                    (Some {| SpecPorts := [web8080; admin8080] |})) tcp8080_taken
             = Err (ErrInvalidSpec why)) ↔
     (¬ Forall in_master_range [web8080; admin8080] ∨
      ¬ NoDup (fixed_keys [web8080; admin8080]))).
Proof.
  intros [_ Hclaim].
  assert (¬ NoDup (fixed_keys [web8080; admin8080])) as Hdup.
  { intros Hnd. apply NoDup_cons_1_1 in Hnd. apply Hnd, list_elem_of_here. }
  destruct (Hclaim (or_intror Hdup)) as [why Hwhy].
  vm_compute in Hwhy. discriminate Hwhy.
Qed.

Example in_use_before_claimed_twice :
  run (Allocate elements_order fresh_endpoint
         (Some {| SpecPorts := [web8080; admin8080] |})) tcp8080_taken
  = Err (ErrResourceInUse (ProtocolTCP, 8080)).
Proof. by vm_compute. Qed.

(** C5, amended: if a descriptor of the spec has a published port or a
    target port above 65535, [Allocate] returns InvalidSpec from its first
    loop, which reads neither the allocator nor a set of the proposal.  If no
    port number is out of range and two descriptors of the spec in ingress
    mode with a non-zero published port have the same key, [Allocate] fails:
    with InvalidSpec, or with ResourceInUse when the pass first meets a key
    that is reserved and not released.  And when the first loop recovers no
    port, [Allocate] returns InvalidSpec in these two cases only. *)
Theorem Allocate_InvalidSpec (o : map_order) (endpoint : Endpoint)
    (spec : option EndpointSpec) (pa : allocator) :
  let specs := SpecPorts (default {| SpecPorts := [] |} spec) in
  (¬ Forall in_master_range specs →
   ∃ e, recover_ports endpoint specs = Err e ∧ out_of_range_error e ∧
        Allocate o endpoint spec pa = (Err e, pa)) ∧
  (Forall in_master_range specs → ¬ NoDup (fixed_keys specs) →
   ∃ e, run (Allocate o endpoint spec) pa = Err e ∧
     ((∃ key, e = ErrInvalidSpec (AssignedMoreThanOnce key)) ∨
      (∃ key, e = ErrResourceInUse key ∧ key ∈ a_ports pa ∧
              key ∉ mark_ports (Ports endpoint) ∅))) ∧
  (∀ why, run (Allocate o endpoint spec) pa = Err (ErrInvalidSpec why) →
     final_port endpoint <$> specs = specs →
     ¬ Forall in_master_range specs ∨ ¬ NoDup (fixed_keys specs)).
Proof.
  intros specs. subst specs. split_and!.
  - intros Hnot. destruct (recover_ports_Err endpoint _ Hnot) as (e & He & Hkind).
    exists e. split_and!; [done..|].
    unfold Allocate, bind, lift.
    replace (match spec with Some s => s | None => {| SpecPorts := [] |} end)
      with (default {| SpecPorts := [] |} spec) by (by destruct spec).
    by rewrite He.
  - intros Hall Hdup.
    pose proof (recover_ports_Ok endpoint _ Hall) as Hrec.
    assert (¬ NoDup (fixed_keys (final_port endpoint <$>
              SpecPorts (default {| SpecPorts := [] |} spec)))) as Hdup'.
    { intros Hnd. apply Hdup. eapply sublist_NoDup; [done|].
      apply fixed_keys_final_ports. }
    destruct (run (Allocate o endpoint spec) pa) as [prop|e] eqn:Hrun.
    + apply Allocate_Ok in Hrun as (fp & Hrec' & Hnd & _).
      rewrite Hrec in Hrec'. by injection Hrec' as <-.
    + exists e. split; [done|].
      apply Allocate_Err in Hrun as [Hrun|(fp & Hrec' & Hkind)]; [congruence|].
      rewrite Hrec in Hrec'. injection Hrec' as <-.
      destruct Hkind as [(key & -> & _ & ? & ?)|[(key & -> & _)
                                                |(proto & -> & ? & _)]].
      * right. by exists key.
      * left. by exists key.
      * done.
  - intros why Hrun Hsame.
    destruct (decide (Forall in_master_range
                (SpecPorts (default {| SpecPorts := [] |} spec)))) as [Hall|Hnot];
      [|by left].
    right. pose proof (recover_ports_Ok endpoint _ Hall) as Hrec.
    rewrite Hsame in Hrec.
    apply Allocate_Err in Hrun as [Hrun|(fp & Hrec' & Hkind)]; [congruence|].
    rewrite Hrec in Hrec'. injection Hrec' as <-.
    by destruct Hkind as [(key & [=] & _)|[(key & _ & _ & ?)|(proto & [=] & _)]].
Qed.

Lemma Allocate_InvalidSpec_witness :
  (∃ e, recover_ports fresh_endpoint [web65536] = Err e ∧ out_of_range_error e ∧
        Allocate elements_order fresh_endpoint (Some {| SpecPorts := [web65536] |})
          tcp8080_taken = (Err e, tcp8080_taken)) ∧
  (∃ e, run (Allocate elements_order fresh_endpoint
               (Some {| SpecPorts := [web8080; admin8080] |})) NewAllocator = Err e ∧
     ((∃ key, e = ErrInvalidSpec (AssignedMoreThanOnce key)) ∨
      (∃ key, e = ErrResourceInUse key ∧ key ∈ a_ports NewAllocator ∧
              key ∉ mark_ports (Ports fresh_endpoint) ∅))) ∧
  (¬ Forall in_master_range [web8080; admin8080] ∨
   ¬ NoDup (fixed_keys [web8080; admin8080])).
Proof.
  assert (¬ Forall in_master_range [web65536]) as Hrange.
  { intros Hall. apply Forall_cons_1 in Hall as [[Hp _] _]. by vm_compute in Hp. }
  assert (Forall in_master_range [web8080; admin8080]) as Hall.
  { repeat constructor; by vm_compute. }
  assert (¬ NoDup (fixed_keys [web8080; admin8080])) as Hdup.
  { intros Hnd. apply NoDup_cons_1_1 in Hnd. apply Hnd, list_elem_of_here. }
  refine (conj _ (conj _ _)).
  - exact (proj1 (Allocate_InvalidSpec elements_order fresh_endpoint
                    (Some {| SpecPorts := [web65536] |}) tcp8080_taken) Hrange).
  - exact (proj1 (proj2 (Allocate_InvalidSpec elements_order fresh_endpoint
                    (Some {| SpecPorts := [web8080; admin8080] |}) NewAllocator))
             Hall Hdup).
  - refine (proj2 (proj2 (Allocate_InvalidSpec elements_order fresh_endpoint
                    (Some {| SpecPorts := [web8080; admin8080] |}) NewAllocator))
              (AssignedMoreThanOnce (ProtocolTCP, 8080)) _ eq_refl).
    by vm_compute.
Defined.

(** ** IsNoop *)

(** C6, as the spec states it, fails for the proposal that releases TCP port
    8080 when the allocator does not hold that key: [Commit] leaves the
    allocator as it is, and [IsNoop] is false. *)
Lemma IsNoop_iff_counterexample :
  ¬ (IsNoop elements_order (Deallocate {| Spec := None; Ports := [web8080] |}) = true ↔
     exec (Commit elements_order (Deallocate {| Spec := None; Ports := [web8080] |}))
       NewAllocator = NewAllocator).
Proof.
  intros [_ Hclaim].
  assert (IsNoop elements_order (Deallocate {| Spec := None; Ports := [web8080] |})
          = false) as Hno by (by vm_compute).
  rewrite Hclaim in Hno; [done|by vm_compute].
Qed.

Lemma Commit_unchanged_inv (o : map_order) (prop : proposal) (pa : allocator) :
  deallocate prop ⊆ a_ports pa →
  (∀ key, key ∈ allocate prop → key ∉ a_ports pa ∨ key ∈ deallocate prop) →
  exec (Commit o prop) pa = pa →
  IsNoop o prop = true.
Proof.
  intros Hsub Hnew Hsame. unfold exec in Hsame. rewrite Commit_spec in Hsame.
  destruct (IsNoop o prop) eqn:Hnoop; [done|].
  simpl in Hsame. destruct pa as [s]. injection Hsame as Hs. simpl in *.
  apply not_true_iff_false in Hnoop. destruct Hnoop. apply IsNoop_true.
  apply set_eq. intros key. split.
  - intros Ha. destruct (Hnew key Ha) as [Hout|?]; [|done].
    destruct Hout. rewrite <- Hs. set_solver.
  - intros Hd. assert (key ∈ (s ∖ deallocate prop) ∪ allocate prop) as Hin
      by (rewrite Hs; by apply Hsub).
    set_solver.
Qed.

(** C6, amended: [IsNoop] is true iff the reserve-set and the release-set
    are equal; when it is true [Commit] leaves the allocator as it is; and
    when the allocator holds every key of the release-set and no key of the
    reserve-set outside the release-set, [Commit] leaves the allocator as it
    is only if [IsNoop] is true.  The second condition holds for every
    proposal [Allocate] returns, for the allocator it was computed on. *)
Theorem IsNoop_Commit (o : map_order) (prop : proposal) (pa : allocator) :
  (IsNoop o prop = true ↔ allocate prop = deallocate prop) ∧
  (IsNoop o prop = true → exec (Commit o prop) pa = pa) ∧
  (deallocate prop ⊆ a_ports pa →
   (∀ key, key ∈ allocate prop → key ∉ a_ports pa ∨ key ∈ deallocate prop) →
   exec (Commit o prop) pa = pa → IsNoop o prop = true) ∧
  (∀ endpoint spec,
     run (Allocate o endpoint spec) pa = Ok prop →
     deallocate prop ⊆ a_ports pa →
     (IsNoop o prop = true ↔ exec (Commit o prop) pa = pa)).
Proof.
  assert (IsNoop o prop = true → exec (Commit o prop) pa = pa) as Hnoop.
  { intros Hn. unfold exec. by rewrite Commit_spec, Hn. }
  split_and!; [apply IsNoop_true|done|apply Commit_unchanged_inv|].
  intros endpoint spec Hrun Hsub. split; [done|].
  apply Allocate_Ok in Hrun as (_ & _ & _ & _ & _ & _ & Hnew).
  by apply Commit_unchanged_inv.
Qed.

Lemma IsNoop_Commit_witness :
  exec (Commit elements_order
          {| ports := Some [web8080]; allocate := {[(ProtocolTCP, 8080)]};
             deallocate := {[(ProtocolTCP, 8080)]} |}) tcp8080_taken
    = tcp8080_taken ∧
  IsNoop elements_order
    {| ports := Some [web8080]; allocate := {[(ProtocolTCP, 8080)]};
       deallocate := {[(ProtocolTCP, 8080)]} |} = true ∧
  (IsNoop elements_order
     {| ports := Some [web8080]; allocate := {[(ProtocolTCP, 8080)]};
        deallocate := {[(ProtocolTCP, 8080)]} |} = true ↔
   exec (Commit elements_order
           {| ports := Some [web8080]; allocate := {[(ProtocolTCP, 8080)]};
              deallocate := {[(ProtocolTCP, 8080)]} |}) tcp8080_taken
     = tcp8080_taken).
Proof.
  pose proof (IsNoop_Commit elements_order
                {| ports := Some [web8080]; allocate := {[(ProtocolTCP, 8080)]};
                   deallocate := {[(ProtocolTCP, 8080)]} |} tcp8080_taken)
    as (Hiff & Hnoop & Hinv & Hcall).
  assert (exec (Commit elements_order
                  {| ports := Some [web8080]; allocate := {[(ProtocolTCP, 8080)]};
                     deallocate := {[(ProtocolTCP, 8080)]} |}) tcp8080_taken
          = tcp8080_taken) as Hsame.
  { apply Hnoop, Hiff. reflexivity. }
  refine (conj Hsame (conj _ _)).
  - apply Hinv; [| |exact Hsame].
    + intros key Hkey. exact Hkey.
    + intros key Hkey. right. exact Hkey.
  - refine (Hcall {| Spec := Some {| SpecPorts := [web8080] |}; Ports := [web8080] |}
              (Some {| SpecPorts := [web8080] |}) _ _).
    + by vm_compute.
    + intros key Hkey. exact Hkey.
Defined.

(** ** AlreadyAllocated *)

Lemma PortsMostlyEqual_Some (a b : PortConfig) :
  PortsMostlyEqual (Some a) (Some b) = true ↔
    Name a = Name b ∧ TargetPort a = TargetPort b ∧
    Protocol a = Protocol b ∧ PublishMode a = PublishMode b.
Proof.
  unfold PortsMostlyEqual. rewrite !andb_true_iff, !bool_decide_eq_true. tauto.
Qed.

(** [portsEqual] on two descriptors is equality of all their fields. *)
Lemma portsEqual_eq (a b : PortConfig) :
  portsEqual a b = true ↔ a = b.
Proof.
  rewrite portsEqual_fields, PortsMostlyEqual_Some. split.
  - destruct a, b; simpl. by intros [(-> & -> & -> & ->) ->].
  - by intros ->.
Qed.

Lemma has_equal_elem_of (specPorts : list PortConfig) (p : PortConfig) :
  has_equal specPorts p = true ↔ p ∈ specPorts.
Proof.
  unfold has_equal. rewrite existsb_exists. split.
  - intros (q & Hin & ->%portsEqual_eq). by apply list_elem_of_In.
  - intros Hin. exists p. split; [by apply list_elem_of_In|by apply portsEqual_eq].
Qed.

(** What [AlreadyAllocated] computes when nothing is absent: equal lengths,
    and every stored descriptor occurs in the desired spec. *)
Lemma AlreadyAllocated_present (stored desired realized : list PortConfig) :
  ∃ b, AlreadyAllocated (Some {| Spec := Some {| SpecPorts := stored |};
                                Ports := realized |})
         (Some {| SpecPorts := desired |}) = Returns b ∧
       (b = true ↔ length stored = length desired ∧ ∀ p, p ∈ stored → p ∈ desired).
Proof.
  unfold AlreadyAllocated. simpl.
  destruct (length stored =? length desired)%nat eqn:Hlen; simpl.
  - apply Nat.eqb_eq in Hlen. eexists. split; [done|].
    unfold portsLoop. rewrite forallb_forall. split.
    + intros Hall. split; [done|]. intros p Hin.
      by apply has_equal_elem_of, Hall, list_elem_of_In.
    + intros [_ Hall] p Hin. by apply has_equal_elem_of, Hall, list_elem_of_In.
  - apply Nat.eqb_neq in Hlen. eexists. split; [done|]. by split; [|intros [? _]].
Qed.

(** When the stored spec has no descriptor twice, that is the equality of the
    two lists as multisets. *)
Lemma AlreadyAllocated_NoDup (stored desired realized : list PortConfig) :
  NoDup stored →
  AlreadyAllocated (Some {| Spec := Some {| SpecPorts := stored |};
                            Ports := realized |})
    (Some {| SpecPorts := desired |}) = Returns true ↔ stored ≡ₚ desired.
Proof.
  intros Hnd.
  destruct (AlreadyAllocated_present stored desired realized) as (b & -> & Hb).
  split.
  - intros [= ->]. destruct (proj1 Hb eq_refl) as [Hlen Hin].
    apply submseteq_length_Permutation; [by apply NoDup_submseteq|lia].
  - intros Hperm. f_equal. apply Hb. split; [by rewrite Hperm|].
    intros p. by rewrite Hperm.
Qed.

(** C7: for the stored spec [web; web] and the desired spec [web; admin],
    which are not the same multiset of descriptors, [AlreadyAllocated]
    returns true: the lengths agree and each stored descriptor occurs in the
    desired spec. *)
Theorem AlreadyAllocated_not_multiset :
  AlreadyAllocated (Some twin_endpoint) (Some {| SpecPorts := [web; admin] |})
    = Returns true ∧
  ¬ ([web; web] ≡ₚ [web; admin]).
Proof.
  split; [by vm_compute|]. intros Hperm.
  assert (admin ∈ [web; web]) as Hin by (rewrite Hperm; set_solver).
  by apply elem_of_cons in Hin as [?|[?|?%elem_of_nil]%elem_of_cons].
Qed.

(** C8: the four cases the code comments name return as the claim says;
    with a present endpoint and an absent desired spec the call panics when
    the stored spec is absent too or has no ports: [endpoint.Spec.Ports],
    respectively [spec.Ports], is read through a nil pointer. *)
Theorem AlreadyAllocated_absent :
  AlreadyAllocated None None = Returns true ∧
  (∀ sp, AlreadyAllocated None (Some sp) = Returns false) ∧
  (∀ realized sp,
     AlreadyAllocated (Some {| Spec := None; Ports := realized |}) (Some sp)
       = Returns false) ∧
  (∀ realized p rest,
     AlreadyAllocated (Some {| Spec := Some {| SpecPorts := p :: rest |};
                               Ports := realized |}) None
       = Returns false) ∧
  (∀ realized,
     AlreadyAllocated (Some {| Spec := None; Ports := realized |}) None = Panics) ∧
  (∀ realized,
     AlreadyAllocated (Some {| Spec := Some {| SpecPorts := [] |};
                               Ports := realized |}) None = Panics).
Proof. by split_and!. Qed.

(** C9: [twin_spec] asks twice for a dynamic port of [web].  A first
    [Allocate] on a fresh endpoint assigns 30000 and 30001 and is committed;
    the endpoint then holds these ports and [twin_spec].  A second [Allocate]
    with the same spec recovers 30001 for both descriptors and fails with
    InvalidSpec instead of returning the two ports again. *)
Theorem Allocate_twice_twin_ports (o : map_order) :
  ∃ prop,
    Allocate o fresh_endpoint (Some twin_spec) NewAllocator = (Ok prop, NewAllocator) ∧
    Proposal_Ports prop = Ports twin_endpoint ∧
    run (Allocate o {| Spec := Some twin_spec; Ports := Proposal_Ports prop |}
           (Some twin_spec))
        (exec (Commit o prop) NewAllocator)
      = Err (ErrInvalidSpec (AssignedMoreThanOnce (ProtocolTCP, 30001))).
Proof.
  exists {| ports := Some (Ports twin_endpoint);
            allocate := {[(ProtocolTCP, 30000); (ProtocolTCP, 30001)]};
            deallocate := ∅ |}.
  split_and!; [by vm_compute|done|].
  unfold exec. rewrite Commit_spec. by vm_compute.
Qed.

(** Where the second call does keep the port: a spec of one dynamic
    descriptor, allocated before with port [i]. *)
Lemma Allocate_again_single (o : map_order) (sp : PortConfig) (i : N)
    (pa : allocator) :
  PublishMode sp = PublishModeIngress → PublishedPort sp = 0 →
  in_master_range sp → i ≠ 0 →
  ∃ prop,
    run (Allocate o {| Spec := Some {| SpecPorts := [sp] |};
                       Ports := [set_PublishedPort sp i] |}
           (Some {| SpecPorts := [sp] |})) pa = Ok prop ∧
    Proposal_Ports prop = [set_PublishedPort sp i] ∧
    IsNoop o prop = true.
Proof.
  intros Hmode Hzero Hrange Hi.
  assert (is_host sp = false) as Hhost by (by apply is_host_false).
  assert (PortsMostlyEqual (Some sp) (Some sp) = true) as Hself
    by (by apply PortsMostlyEqual_Some).
  assert (PortsMostlyEqual (Some sp) (Some (set_PublishedPort sp i)) = true) as Hme
    by (by apply PortsMostlyEqual_Some).
  assert (recover_ports {| Spec := Some {| SpecPorts := [sp] |};
                           Ports := [set_PublishedPort sp i] |} [sp]
          = Ok [set_PublishedPort sp i]) as Hrec.
  { rewrite recover_ports_Ok by (by constructor). simpl. do 2 f_equal.
    rewrite final_port_dynamic by done. f_equal.
    unfold recovered_port, mostly_equal_ports. cbn [Spec SpecPorts Ports existsb List.filter].
    assert (portsEqual sp sp = true) as -> by (by apply portsEqual_eq).
    by rewrite Hme. }
  assert (is_fixed (set_PublishedPort sp i) = true) as Hfix.
  { apply is_fixed_true. by split. }
  assert (is_dynamic (set_PublishedPort sp i) = false) as Hdyn.
  { unfold is_dynamic. simpl. apply N.eqb_neq in Hi. by rewrite Hi. }
  assert (mark_ports [set_PublishedPort sp i] ∅ = {[(Protocol sp, i)]}) as Hmark.
  { simpl. unfold is_host. simpl. fold (is_host sp). rewrite Hhost.
    unfold port_of. simpl. set_solver. }
  eexists. split_and!.
  - unfold run, Allocate, bind, lift. cbn [SpecPorts Ports]. rewrite Hrec, Hmark.
    rewrite fixed_pass_cons, Hfix. unfold port_of. cbn [Protocol PublishedPort set_PublishedPort].
    rewrite (bool_decide_eq_true_2 ((Protocol sp, i) ∈ ({[(Protocol sp, i)]} : gset port)))
      by set_solver.
    rewrite andb_false_r.
    rewrite (bool_decide_eq_false_2 ((Protocol sp, i) ∈ (∅ : gset port)))
      by set_solver.
    cbn [fixed_pass ret]. rewrite dynamic_pass_cons, Hdyn. by cbn.
  - done.
  - apply IsNoop_true. simpl. set_solver.
Qed.

(** * Further properties *)

(** ** Restore, Deallocate and Commit *)

Lemma ingress_keys_cons (p : PortConfig) (rest : list PortConfig) :
  ingress_keys (p :: rest) =
    if is_host p then ingress_keys rest else port_of p :: ingress_keys rest.
Proof. unfold ingress_keys. simpl. by destruct (is_host p). Qed.

Lemma ingress_keys_app (ps qs : list PortConfig) :
  ingress_keys (ps ++ qs) = ingress_keys ps ++ ingress_keys qs.
Proof. unfold ingress_keys. by rewrite List.filter_app, fmap_app. Qed.

Lemma mark_ports_keys (ps : list PortConfig) (m : gset port) :
  mark_ports ps m = list_to_set (ingress_keys ps) ∪ m.
Proof.
  revert m. induction ps as [|p rest IH]; intros m; [set_solver|].
  simpl mark_ports. rewrite ingress_keys_cons.
  destruct (is_host p); rewrite IH; [done|]. set_solver.
Qed.

Lemma mark_endpoints_keys (endpoints : list Endpoint) (m : gset port) :
  mark_endpoints endpoints m = list_to_set (ingress_keys (all_ports endpoints)) ∪ m.
Proof.
  revert m. induction endpoints as [|e rest IH]; intros m; [set_solver|].
  simpl mark_endpoints. unfold all_ports in *. rewrite fmap_cons. simpl concat.
  rewrite IH, mark_ports_keys, ingress_keys_app, list_to_set_app_L. set_solver.
Qed.

(** X1: [Restore] returns without an error, for any map iteration order, and
    leaves in the allocator the keys it held plus the key of every realized
    port, not in host mode, of every endpoint given; nothing is removed and a
    port in host mode adds nothing. *)
Theorem Restore_reserves (o : map_order) (endpoints : list Endpoint) (pa : allocator) :
  Restore o endpoints pa =
    (Ok tt,
     {| a_ports := a_ports pa ∪ list_to_set (ingress_keys (all_ports endpoints)) |}).
Proof.
  rewrite Restore_spec, mark_endpoints_keys. do 2 f_equal. set_solver.
Qed.

Lemma Commit_Deallocate_spec (o : map_order) (endpoint : Endpoint) (pa : allocator) :
  Commit o (Deallocate endpoint) pa =
    (Ok tt, {| a_ports := a_ports pa ∖ list_to_set (ingress_keys (Ports endpoint)) |}).
Proof.
  rewrite Commit_spec. f_equal. unfold Deallocate. simpl.
  rewrite mark_ports_keys.
  destruct (IsNoop o _) eqn:Hnoop; simpl.
  - apply IsNoop_true in Hnoop. simpl in Hnoop.
    destruct pa as [s]. simpl. f_equal. set_solver.
  - f_equal. set_solver.
Qed.

(** X2: committing the proposal of [Deallocate] returns without an error and
    removes from the allocator the keys of the realized ports of the endpoint
    that are not in host mode, and no other key. *)
Theorem Deallocate_Commit (o : map_order) (endpoint : Endpoint) (pa : allocator) :
  Commit o (Deallocate endpoint) pa =
    (Ok tt, {| a_ports := a_ports pa ∖ list_to_set (ingress_keys (Ports endpoint)) |}).
Proof. apply Commit_Deallocate_spec. Qed.

Lemma IsNoop_order (o o' : map_order) (prop : proposal) :
  IsNoop o prop = IsNoop o' prop.
Proof.
  destruct (IsNoop o' prop) eqn:Hn.
  - apply IsNoop_true. by apply IsNoop_true in Hn.
  - apply not_true_iff_false. intros Hn'%IsNoop_true.
    apply (IsNoop_true o') in Hn'. congruence.
Qed.

(** X3: committing a proposal a second time, right after the first, changes
    nothing more, whatever the map iteration orders of the two calls. *)
Theorem Commit_idempotent (o o' : map_order) (prop : proposal) (pa : allocator) :
  exec (Commit o' prop) (exec (Commit o prop) pa) = exec (Commit o prop) pa.
Proof.
  unfold exec. rewrite !Commit_spec. simpl.
  rewrite (IsNoop_order o' o).
  destruct (IsNoop o prop); [done|]. simpl. f_equal. set_solver.
Qed.

(** X4: the order in which Go iterates over a map has no influence on
    [IsNoop], [Commit] and [Restore]: two iteration orders give the same
    result and the same allocator. *)
Theorem map_order_irrelevant (o o' : map_order) (prop : proposal)
    (endpoints : list Endpoint) (pa : allocator) :
  IsNoop o prop = IsNoop o' prop ∧
  Commit o prop pa = Commit o' prop pa ∧
  Restore o endpoints pa = Restore o' endpoints pa.
Proof.
  split_and!; [apply IsNoop_order| |].
  - by rewrite !Commit_spec, (IsNoop_order o o').
  - by rewrite !Restore_spec.
Qed.

(** X5: when the allocator holds every key of the release-set, [Commit]
    leaves it with its keys minus the release-set plus the reserve-set, also
    when it returns early for a no-op proposal; every key of the reserve-set
    is then reserved. *)
Theorem Commit_releases_then_reserves (o : map_order) (prop : proposal)
    (pa : allocator) :
  deallocate prop ⊆ a_ports pa →
  a_ports (exec (Commit o prop) pa) =
    (a_ports pa ∖ deallocate prop) ∪ allocate prop ∧
  allocate prop ⊆ a_ports (exec (Commit o prop) pa).
Proof.
  intros Hsub. unfold exec. rewrite Commit_spec. simpl.
  destruct (IsNoop o prop) eqn:Hnoop; simpl; [|set_solver].
  apply IsNoop_true in Hnoop. rewrite Hnoop. split; [|done].
  apply set_eq. intros key. destruct (decide (key ∈ deallocate prop)); set_solver.
Qed.

Lemma Commit_releases_then_reserves_witness :
  a_ports (exec (Commit elements_order
                   {| ports := None; allocate := {[(ProtocolTCP, 8081)]};
                      deallocate := {[(ProtocolTCP, 8080)]} |}) tcp8080_taken) =
    (a_ports tcp8080_taken ∖ {[(ProtocolTCP, 8080)]}) ∪ {[(ProtocolTCP, 8081)]} ∧
  ({[(ProtocolTCP, 8081)]} : gset port) ⊆
    a_ports (exec (Commit elements_order
                     {| ports := None; allocate := {[(ProtocolTCP, 8081)]};
                        deallocate := {[(ProtocolTCP, 8080)]} |}) tcp8080_taken).
Proof.
  refine (Commit_releases_then_reserves elements_order
            {| ports := None; allocate := {[(ProtocolTCP, 8081)]};
               deallocate := {[(ProtocolTCP, 8080)]} |} tcp8080_taken _).
  intros key Hkey. exact Hkey.
Defined.

(** ** What a returned proposal holds *)

(** Membership of one key in the two sides of an equation between sets. *)
Ltac eq_at H key :=
  match type of H with
  | ?X = ?Y =>
      let Hk := fresh "Hk" in
      assert (key ∈ X ↔ key ∈ Y) as Hk by (by rewrite H); clear H
  end.

Lemma descriptor_kind (p : PortConfig) :
  (is_dynamic p = true ∧ is_host p = false ∧ is_fixed p = false) ∨
  (is_dynamic p = false ∧ is_host p = true ∧ is_fixed p = false) ∨
  (is_dynamic p = false ∧ is_host p = false ∧ is_fixed p = true).
Proof.
  unfold is_dynamic, is_fixed.
  destruct (PublishedPort p =? 0), (is_host p); simpl; tauto.
Qed.

Lemma choose_port_fresh (o : map_order) (k : nat) (proto : PortConfig_Protocol)
    (d a : gset port) (pa : allocator) (i : N) (pa' : allocator) :
  choose_port o k proto d a pa = (Ok (Some i), pa') → (proto, i) ∉ a.
Proof.
  destruct (choose_port_spec o k proto d a pa) as (c & -> & Hc). intros [= -> _].
  by destruct Hc as [(_ & [_ ?] & _)|(_ & _ & _ & _ & ?)].
Qed.

(** The keys of the result of the second pass. *)
Lemma dynamic_pass_keys (o : map_order) (d : gset port) (ps : list PortConfig)
    (k : nat) (a : gset port) (pa pa' : allocator)
    (r : list PortConfig * gset port) :
  dynamic_pass o d k ps a pa = (Ok r, pa') →
  list_to_set (ingress_keys r.1) ∪ a = r.2 ∪ list_to_set (fixed_keys ps) ∧
  (∀ key, key ∈ fixed_keys ps → key ∈ ingress_keys r.1) ∧
  (NoDup (fixed_keys ps) → list_to_set (fixed_keys ps) ⊆ a →
   NoDup (ingress_keys r.1) ∧
   ∀ key, key ∈ ingress_keys r.1 → key ∈ fixed_keys ps ∨ key ∉ a).
Proof.
  revert k a r pa pa'. induction ps as [|p rest IH]; intros k a r pa pa'.
  - simpl. intros [= <- <-]. simpl. split_and!; [set_solver|done|].
    intros _ _. split; [constructor|]. by intros key ?%elem_of_nil.
  - rewrite dynamic_pass_cons, fixed_keys_cons.
    destruct (descriptor_kind p) as [(-> & Hh & ->)|[(-> & Hh & ->)|(-> & Hh & ->)]].
    + destruct (choose_port o k (Protocol p) d a pa) as [[[i|]|e] pa1] eqn:Hc;
        [|done..].
      apply choose_port_fresh in Hc as Hfresh.
      unfold bind.
      destruct (dynamic_pass _ _ _ _ _ _) as [[r'|e] pa2] eqn:Hrest; [|done].
      intros [= <- <-]. cbn [fst snd].
      destruct (IH _ _ _ _ _ Hrest) as (Hkeys & Hfix & Hnd).
      rewrite ingress_keys_cons.
      change (is_host (set_PublishedPort p i)) with (is_host p). rewrite Hh.
      change (port_of (set_PublishedPort p i)) with (Protocol p, i).
      split_and!.
      * rewrite list_to_set_cons, <- Hkeys. clear. set_solver.
      * intros key Hin. apply elem_of_cons. right. by apply Hfix.
      * intros Hdup Hsub. destruct Hnd as [Hnd Hnew]; [done|set_solver|].
        split.
        -- constructor; [|done]. intros Hin.
           destruct (Hnew _ Hin) as [Hf|Hf]; [|set_solver].
           apply Hfresh, Hsub. by apply elem_of_list_to_set.
        -- intros key [->|Hin]%elem_of_cons; [by right|].
           destruct (Hnew _ Hin) as [?|?]; [by left|right; set_solver].
    + unfold bind.
      destruct (dynamic_pass _ _ _ _ _ _) as [[r'|e] pa2] eqn:Hrest; [|done].
      intros [= <- <-]. cbn [fst snd].
      destruct (IH _ _ _ _ _ Hrest) as (Hkeys & Hfix & Hnd).
      by rewrite ingress_keys_cons, Hh.
    + unfold bind.
      destruct (dynamic_pass _ _ _ _ _ _) as [[r'|e] pa2] eqn:Hrest; [|done].
      intros [= <- <-]. cbn [fst snd].
      destruct (IH _ _ _ _ _ Hrest) as (Hkeys & Hfix & Hnd).
      rewrite ingress_keys_cons, Hh.
      split_and!.
      * rewrite !list_to_set_cons, <- (assoc_L (∪)), Hkeys. clear. set_solver.
      * intros key [->|Hin]%elem_of_cons; [apply list_elem_of_here|].
        apply elem_of_cons. right. by apply Hfix.
      * intros Hdup Hsub. apply NoDup_cons in Hdup as [Hnotin Hdup].
        destruct Hnd as [Hnd Hnew]; [done|set_solver|].
        split.
        -- constructor; [|done]. intros Hin.
           destruct (Hnew _ Hin) as [?|Hf]; [done|].
           apply Hf, Hsub. apply elem_of_list_to_set, list_elem_of_here.
        -- intros key [->|Hin]%elem_of_cons; [left; apply list_elem_of_here|].
           destruct (Hnew _ Hin) as [?|?]; [left|by right].
           by apply elem_of_cons; right.
Qed.

Lemma reserve_set_eq (X F R : gset port) :
  X ∪ (F ∪ ∅) = R ∪ F → F ⊆ X → F ∪ ∅ ⊆ R → R = X.
Proof.
  intros Heq HFX HFR. apply set_eq. intros key. eq_at Heq key. split; intros Hin.
  - assert (key ∈ R ∪ F) as Hin' by (apply elem_of_union; by left).
    apply Hk, elem_of_union in Hin' as [?|Hin']; [done|].
    apply HFX. by apply elem_of_union in Hin' as [?|?%elem_of_empty].
  - assert (key ∈ X ∪ (F ∪ ∅)) as Hin' by (apply elem_of_union; by left).
    apply Hk, elem_of_union in Hin' as [?|Hin']; [done|].
    apply HFR, elem_of_union. by left.
Qed.

(** The steps of a call of [Allocate] that returns a proposal. *)
Lemma Allocate_Ok_steps (o : map_order) (endpoint : Endpoint)
    (spec : option EndpointSpec) (pa : allocator) (prop : proposal) :
  run (Allocate o endpoint spec) pa = Ok prop →
  ∃ finalPorts r,
    recover_ports endpoint (SpecPorts (default {| SpecPorts := [] |} spec))
      = Ok finalPorts ∧
    NoDup (fixed_keys finalPorts) ∧
    dynamic_pass o (mark_ports (Ports endpoint) ∅) 0 finalPorts
      (list_to_set (fixed_keys finalPorts) ∪ ∅) pa = (Ok r, pa) ∧
    prop = {| ports := Some r.1; allocate := r.2;
              deallocate := mark_ports (Ports endpoint) ∅ |}.
Proof.
  unfold run, Allocate, bind, lift.
  replace (match spec with Some s => s | None => {| SpecPorts := [] |} end)
    with (default {| SpecPorts := [] |} spec) by (by destruct spec).
  destruct (recover_ports _ _) as [finalPorts|e]; [|done].
  pose proof (fixed_pass_spec (mark_ports (Ports endpoint) ∅) finalPorts ∅ pa) as Hfix.
  destruct (fixed_pass _ _ _ _) as [[a|e] pa']; [|done].
  destruct Hfix as (-> & -> & Hnd & Hall).
  pose proof (dynamic_pass_spec o (mark_ports (Ports endpoint) ∅) finalPorts 0
                (list_to_set (fixed_keys finalPorts) ∪ ∅) pa) as Hdyn.
  destruct (dynamic_pass _ _ _ _ _ _) as [[r|e] pa'] eqn:Hpass; [|done].
  destruct Hdyn as (-> & _). simpl. intros [= <-].
  by exists finalPorts, r.
Qed.

(** X6: the reserve-set of a proposal that [Allocate] returns is the set of
    the keys of its result ports that are not in host mode: what [Commit]
    reserves is what [Restore] and [Deallocate] later read off the endpoint
    once the result is written to it. *)
Theorem Allocate_reserves_result_keys (o : map_order) (endpoint : Endpoint)
    (spec : option EndpointSpec) (pa : allocator) (prop : proposal) :
  run (Allocate o endpoint spec) pa = Ok prop →
  allocate prop = list_to_set (ingress_keys (Proposal_Ports prop)) ∧
  allocate prop =
    deallocate (Deallocate {| Spec := spec; Ports := Proposal_Ports prop |}).
Proof.
  intros Hrun.
  apply Allocate_Ok_steps in Hrun as (finalPorts & r & _ & _ & Hpass & ->).
  pose proof (dynamic_pass_spec o (mark_ports (Ports endpoint) ∅) finalPorts 0
                (list_to_set (fixed_keys finalPorts) ∪ ∅) pa) as Hspec.
  rewrite Hpass in Hspec. destruct Hspec as (_ & _ & Hsub & _).
  apply dynamic_pass_keys in Hpass as (Hkeys & Hfix & _).
  unfold Deallocate, Proposal_Ports. simpl. rewrite mark_ports_keys.
  assert (r.2 = list_to_set (ingress_keys r.1)) as <-.
  { apply (reserve_set_eq _ _ _ Hkeys); [|done].
    intros key Hin. apply elem_of_list_to_set, Hfix.
    by apply elem_of_list_to_set in Hin. }
  split; [done|]. by rewrite (right_id_L ∅ (∪)).
Qed.

Lemma Allocate_Ok_keys (o : map_order) (endpoint : Endpoint)
    (spec : option EndpointSpec) (pa : allocator) (prop : proposal) :
  run (Allocate o endpoint spec) pa = Ok prop →
  allocate prop = list_to_set (ingress_keys (Proposal_Ports prop)) ∧
  NoDup (ingress_keys (Proposal_Ports prop)) ∧
  deallocate prop = list_to_set (ingress_keys (Ports endpoint)) ∧
  ∀ key, key ∈ allocate prop → key ∈ a_ports pa → key ∈ deallocate prop.
Proof.
  intros Hrun.
  pose proof (Allocate_Ok _ _ _ _ _ Hrun) as (_ & _ & _ & _ & Hdeall & _ & Hnew).
  apply Allocate_Ok_steps in Hrun as (finalPorts & r & _ & Hdup & Hpass & ->).
  pose proof (dynamic_pass_spec o (mark_ports (Ports endpoint) ∅) finalPorts 0
                (list_to_set (fixed_keys finalPorts) ∪ ∅) pa) as Hspec.
  rewrite Hpass in Hspec. destruct Hspec as (_ & _ & Hsub & _).
  apply dynamic_pass_keys in Hpass as (Hkeys & Hfix & Hnd).
  destruct (Hnd Hdup) as [Hnodup _];
    [by intros key ?; apply elem_of_union; left|].
  unfold Proposal_Ports in *. cbn [ports allocate deallocate] in *.
  split_and!; [|done| |].
  - apply (reserve_set_eq _ _ _ Hkeys); [|done].
    intros key Hin. apply elem_of_list_to_set, Hfix.
    by apply elem_of_list_to_set in Hin.
  - by rewrite mark_ports_keys, (right_id_L ∅ (∪)).
  - intros key Hin Hpa. by destruct (Hnew key Hin).
Qed.

(** X7: in a proposal that [Allocate] returns no two result ports outside
    host mode have the same (protocol, published port) key. *)
Theorem Allocate_result_keys_distinct (o : map_order) (endpoint : Endpoint)
    (spec : option EndpointSpec) (pa : allocator) (prop : proposal) :
  run (Allocate o endpoint spec) pa = Ok prop →
  NoDup (ingress_keys (Proposal_Ports prop)).
Proof. intros Hrun. by apply Allocate_Ok_keys in Hrun as (_ & ? & _). Qed.

(** X8: the release-set of a proposal that [Allocate] returns is the set of
    the keys of the realized ports of the endpoint that are not in host mode,
    and a key of its reserve-set that the allocator already holds is one of
    these: [Allocate] never hands out a key that is reserved and not released
    by the same call. *)
Theorem Allocate_reserves_only_free_keys (o : map_order) (endpoint : Endpoint)
    (spec : option EndpointSpec) (pa : allocator) (prop : proposal) :
  run (Allocate o endpoint spec) pa = Ok prop →
  deallocate prop = list_to_set (ingress_keys (Ports endpoint)) ∧
  ∀ key, key ∈ allocate prop → key ∈ a_ports pa →
         key ∈ ingress_keys (Ports endpoint).
Proof.
  intros Hrun. apply Allocate_Ok_keys in Hrun as (_ & _ & Hd & Hnew).
  split; [done|]. intros key Hin Hpa.
  apply (elem_of_list_to_set (C:=gset port)). rewrite <- Hd. by apply Hnew.
Qed.

Lemma final_port_shape (endpoint : Endpoint) (sp : PortConfig) :
  final_port endpoint sp =
    set_PublishedPort sp (PublishedPort (final_port endpoint sp)) ∧
  (is_dynamic sp = false → final_port endpoint sp = sp).
Proof.
  destruct (descriptor_kind sp) as [(Hd & Hh & _)|[(Hd & Hh & _)|(Hd & Hh & Hf)]].
  - pose proof Hd as [Hz Hm]%is_dynamic_true.
    rewrite (final_port_dynamic _ _ Hm Hz). split; [done|].
    intros Hd'. congruence.
  - assert (final_port endpoint sp = sp) as -> by (unfold final_port; by rewrite Hh).
    by rewrite set_PublishedPort_same.
  - rewrite (final_port_fixed _ _ Hf). by rewrite set_PublishedPort_same.
Qed.

Lemma assigned_result_of (endpoint : Endpoint) (a : gset port) (sp r : PortConfig) :
  assigned a (final_port endpoint sp) r → result_of sp r.
Proof.
  unfold assigned, result_of.
  destruct (final_port_shape endpoint sp) as [Hshape Hsame].
  destruct (descriptor_kind (final_port endpoint sp))
    as [(Hd & Hh & _)|[(Hd & Hh & _)|(Hd & Hh & Hf)]]; rewrite Hd.
  - intros (Hr & [Hlo _] & _).
    assert (is_dynamic sp = true) as Hsp.
    { destruct (is_dynamic sp) eqn:Hsp; [done|].
      rewrite (Hsame eq_refl) in Hd. congruence. }
    apply is_dynamic_true in Hsp as [Hz Hm].
    split_and!.
    + rewrite Hr, Hshape. by destruct sp.
    + intros [Hhost|Hnz]; [congruence|done].
    + intros _. unfold DynamicPortStart in Hlo. lia.
  - intros ->. split_and!; [done| |].
    + intros Hor. apply Hsame. unfold is_dynamic. destruct Hor as [Hhost|Hnz].
      * unfold is_host. rewrite (bool_decide_eq_true_2 _ Hhost). by rewrite orb_true_r.
      * apply N.eqb_neq in Hnz. by rewrite Hnz.
    + intros Hm. unfold is_host in Hh. apply bool_decide_eq_true in Hh.
      rewrite Hshape in Hh. simpl in Hh. congruence.
  - intros ->. split_and!; [done| |].
    + intros Hor. apply Hsame. unfold is_dynamic. destruct Hor as [Hhost|Hnz].
      * unfold is_host. rewrite (bool_decide_eq_true_2 _ Hhost). by rewrite orb_true_r.
      * apply N.eqb_neq in Hnz. by rewrite Hnz.
    + intros _. by apply is_fixed_true in Hf as [? _].
Qed.

(** X9: the result list of a proposal that [Allocate] returns has the
    length of the spec, and its descriptor at an index is the descriptor of
    the spec at that index but for the published port; a descriptor in host
    mode or with a published port given by the user is returned as it is, and
    every result descriptor in ingress mode has a non-zero published port. *)
Theorem Allocate_result_by_index (o : map_order) (endpoint : Endpoint)
    (spec : option EndpointSpec) (pa : allocator) (prop : proposal) :
  run (Allocate o endpoint spec) pa = Ok prop →
  Forall2 result_of (SpecPorts (default {| SpecPorts := [] |} spec))
    (Proposal_Ports prop).
Proof.
  intros Hrun.
  apply Allocate_Ok in Hrun as (finalPorts & Hrec & _ & Hres & _).
  apply recover_ports_inv in Hrec as [_ ->].
  rewrite Forall2_fmap_l in Hres.
  eapply Forall2_impl; [exact Hres|]. intros sp r. simpl.
  apply assigned_result_of.
Qed.

Lemma Allocate_result_keys_distinct_witness :
  NoDup (ingress_keys (Proposal_Ports mixed_proposal)).
Proof.
  refine (Allocate_result_keys_distinct elements_order fresh_endpoint
            (Some mixed_spec) NewAllocator mixed_proposal _).
  by vm_compute.
Defined.

Lemma Allocate_reserves_only_free_keys_witness :
  deallocate mixed_proposal = list_to_set (ingress_keys (Ports fresh_endpoint)) ∧
  ∀ key, key ∈ allocate mixed_proposal → key ∈ a_ports NewAllocator →
         key ∈ ingress_keys (Ports fresh_endpoint).
Proof.
  refine (Allocate_reserves_only_free_keys elements_order fresh_endpoint
            (Some mixed_spec) NewAllocator mixed_proposal _).
  by vm_compute.
Defined.

Lemma Allocate_result_by_index_witness :
  Forall2 result_of (SpecPorts mixed_spec) (Proposal_Ports mixed_proposal).
Proof.
  refine (Allocate_result_by_index elements_order fresh_endpoint
            (Some mixed_spec) NewAllocator mixed_proposal _).
  by vm_compute.
Defined.

Lemma Allocate_reserves_result_keys_witness :
  allocate mixed_proposal = list_to_set (ingress_keys (Proposal_Ports mixed_proposal)) ∧
  allocate mixed_proposal =
    deallocate (Deallocate {| Spec := Some mixed_spec;
                              Ports := Proposal_Ports mixed_proposal |}).
Proof.
  refine (Allocate_reserves_result_keys elements_order fresh_endpoint
            (Some mixed_spec) NewAllocator mixed_proposal _).
  by vm_compute.
Defined.

(** ** Two endpoints, and an endpoint over time *)

(** X10: let a first proposal of [Allocate] be committed to an allocator that
    holds the keys it releases, and let a second [Allocate], for any endpoint
    and spec, return a proposal on the allocator so obtained.  A key of a
    result port of the first proposal is then the key of a result port of the
    second only if it is the key of a realized port of the second endpoint:
    two endpoints are never given the same (protocol, published port). *)
Theorem Allocate_no_collision (o o' o'' : map_order) (endpoint1 endpoint2 : Endpoint)
    (spec1 spec2 : option EndpointSpec) (pa : allocator) (prop1 prop2 : proposal) :
  run (Allocate o endpoint1 spec1) pa = Ok prop1 →
  list_to_set (ingress_keys (Ports endpoint1)) ⊆ a_ports pa →
  run (Allocate o'' endpoint2 spec2) (exec (Commit o' prop1) pa) = Ok prop2 →
  ∀ key, key ∈ ingress_keys (Proposal_Ports prop1) →
         key ∈ ingress_keys (Proposal_Ports prop2) →
         key ∈ ingress_keys (Ports endpoint2).
Proof.
  intros Hrun1 Hheld Hrun2 key Hin1 Hin2.
  apply Allocate_Ok_keys in Hrun1 as (Ha1 & _ & Hd1 & _).
  apply Allocate_Ok_keys in Hrun2 as (Ha2 & _ & Hd2 & Hnew2).
  apply (elem_of_list_to_set (C:=gset port)). rewrite <- Hd2. apply Hnew2.
  - rewrite Ha2. by apply elem_of_list_to_set.
  - unfold exec. rewrite Commit_spec. simpl.
    assert (key ∈ allocate prop1) as Hin by (rewrite Ha1; by apply elem_of_list_to_set).
    destruct (IsNoop o' prop1) eqn:Hnoop; simpl; [|set_solver].
    apply IsNoop_true in Hnoop. apply Hheld. by rewrite <- Hd1, <- Hnoop.
Qed.

Lemma Allocate_no_collision_witness :
  (ProtocolTCP, 8080) ∈ ingress_keys (Ports mixed_endpoint).
Proof.
  refine (Allocate_no_collision elements_order elements_order elements_order
            fresh_endpoint mixed_endpoint (Some mixed_spec) (Some mixed_spec)
            NewAllocator mixed_proposal
            {| ports := Some [web30000; admin8080; host8080];
               allocate := {[(ProtocolTCP, 8080); (ProtocolTCP, 30000)]};
               deallocate := {[(ProtocolTCP, 8080); (ProtocolTCP, 30000)]} |}
            _ _ _ (ProtocolTCP, 8080) _ _).
  - by vm_compute.
  - intros key Hkey. by apply not_elem_of_empty in Hkey.
  - by vm_compute.
  - apply (bool_decide_unpack _). by vm_compute.
  - apply (bool_decide_unpack _). by vm_compute.
Defined.

(** X11: when the proposal of [Allocate] is committed, its result written to
    the endpoint, and the proposal of [Deallocate] for that endpoint committed
    in turn, the allocator is left with the keys it had at first minus those
    of the old and of the new ports of the endpoint; for an endpoint that had
    no port outside host mode it is left with exactly the keys it had. *)
Theorem Allocate_Deallocate_round_trip (o o' o'' : map_order) (endpoint : Endpoint)
    (spec : option EndpointSpec) (pa : allocator) (prop : proposal) :
  run (Allocate o endpoint spec) pa = Ok prop →
  let pa' :=
    exec (Commit o'' (Deallocate {| Spec := spec; Ports := Proposal_Ports prop |}))
         (exec (Commit o' prop) pa) in
  a_ports pa' =
    a_ports pa ∖ list_to_set (ingress_keys (Ports endpoint))
               ∖ list_to_set (ingress_keys (Proposal_Ports prop)) ∧
  (ingress_keys (Ports endpoint) = [] → pa' = pa).
Proof.
  intros Hrun pa'. subst pa'.
  apply Allocate_Ok_keys in Hrun as (Ha & _ & Hd & Hnew).
  rewrite <- Ha, <- Hd.
  unfold exec at 1 3. rewrite !Commit_Deallocate_spec. cbn [Ports snd a_ports].
  rewrite <- Ha.
  assert (a_ports (exec (Commit o' prop) pa) ∖ allocate prop =
          a_ports pa ∖ deallocate prop ∖ allocate prop) as Heq.
  { unfold exec. rewrite Commit_spec. cbn [snd].
    destruct (IsNoop o' prop) eqn:Hn; cbn [a_ports].
    - apply IsNoop_true in Hn. rewrite <- Hn. clear. set_solver.
    - clear. set_solver. }
  split; [done|].
  intros Hnone. rewrite Hnone in Hd. simpl in Hd. rewrite Heq, Hd.
  destruct pa as [s]. cbn [a_ports] in *. f_equal.
  apply set_eq. intros key. specialize (Hnew key). rewrite Hd in Hnew.
  clear -Hnew. set_solver.
Qed.

Lemma Allocate_Deallocate_round_trip_witness :
  a_ports round_trip_state =
    a_ports NewAllocator ∖ list_to_set (ingress_keys (Ports fresh_endpoint))
      ∖ list_to_set (ingress_keys (Proposal_Ports mixed_proposal)) ∧
  round_trip_state = NewAllocator.
Proof.
  pose proof (Allocate_Deallocate_round_trip elements_order elements_order
                elements_order fresh_endpoint (Some mixed_spec) NewAllocator
                mixed_proposal) as Htrip.
  destruct Htrip as [Hports Hsame]; [by vm_compute|].
  split; [exact Hports|]. apply Hsame. reflexivity.
Defined.

Lemma dynamic_pass_none (o : map_order) (d : gset port) (ps : list PortConfig)
    (k : nat) (a : gset port) (pa : allocator) :
  Forall (fun p => is_dynamic p = false) ps →
  dynamic_pass o d k ps a pa = (Ok (ps, a), pa).
Proof.
  intros Hall. revert k. induction Hall as [|p rest Hp _ IH]; intros k; [done|].
  rewrite dynamic_pass_cons, Hp. unfold bind. by rewrite IH.
Qed.

Lemma result_of_kind (sp r : PortConfig) :
  result_of sp r →
  is_host r = is_host sp ∧ is_dynamic r = false ∧ is_fixed r = negb (is_host r).
Proof.
  intros (Hr & _ & Hnz).
  assert (is_host r = is_host sp) as Hh by (by rewrite Hr).
  split; [done|]. unfold is_dynamic, is_fixed. rewrite Hh.
  destruct (is_host sp) eqn:Hhost; [by rewrite !orb_true_r|].
  apply is_host_false, Hnz, N.eqb_neq in Hhost. by rewrite Hhost.
Qed.

Lemma fixed_keys_ingress_keys (ps : list PortConfig) :
  Forall (fun p => is_fixed p = negb (is_host p)) ps →
  fixed_keys ps = ingress_keys ps.
Proof.
  induction 1 as [|p rest Hp _ IH]; [done|].
  rewrite fixed_keys_cons, ingress_keys_cons, Hp, IH. by destruct (is_host p).
Qed.

(** X12: let the realized ports of an endpoint be a result for its stored
    spec, index by index, with pairwise distinct keys, and let, for each
    descriptor of the spec that asks for a dynamic port, the last realized
    port mostly equal to it be the one at its own index.  Then [Allocate] with
    the same spec returns, on any allocator, the realized ports again, in a
    proposal that is a no-op. *)
Theorem Allocate_again (o : map_order) (specs res : list PortConfig) (pa : allocator) :
  Forall in_master_range specs →
  Forall2 result_of specs res →
  NoDup (ingress_keys res) →
  (∀ n sp r, specs !! n = Some sp → res !! n = Some r →
     PublishMode sp = PublishModeIngress → PublishedPort sp = 0 →
     last (mostly_equal_ports sp res) = Some r) →
  ∃ prop,
    run (Allocate o {| Spec := Some {| SpecPorts := specs |}; Ports := res |}
           (Some {| SpecPorts := specs |})) pa = Ok prop ∧
    Proposal_Ports prop = res ∧
    IsNoop o prop = true.
Proof.
  intros Hrange Hres Hnd Hlast.
  set (ep := {| Spec := Some {| SpecPorts := specs |}; Ports := res |}).
  assert (recover_ports ep specs = Ok res) as Hrec.
  { rewrite recover_ports_Ok by done. f_equal.
    apply list_eq_Forall2, Forall2_fmap_l.
    apply Forall2_same_length_lookup_2; [by eapply Forall2_length|].
    intros n sp r Hsp Hr.
    pose proof (Forall2_lookup_lr _ _ _ _ _ _ Hres Hsp Hr) as (Hshape & Hsame & _).
    change (final_port ep sp = r).
    destruct (descriptor_kind sp) as [(Hd & _)|[(_ & Hh & _)|(_ & _ & Hf)]].
    - apply is_dynamic_true in Hd as [Hz Hm].
      rewrite (final_port_dynamic _ _ Hm Hz).
      etrans; [|symmetry; exact Hshape]. f_equal.
      unfold recovered_port. cbn [ep Spec SpecPorts Ports].
      assert (existsb (fun o0 => portsEqual o0 sp) specs = true) as ->.
      { apply existsb_exists. exists sp. split; [|by apply portsEqual_eq].
        apply list_elem_of_In. by eapply list_elem_of_lookup_2. }
      by rewrite (Hlast n sp r).
    - unfold final_port. rewrite Hh. symmetry. apply Hsame. left.
      by apply bool_decide_eq_true in Hh.
    - rewrite (final_port_fixed _ _ Hf). symmetry. apply Hsame. right.
      by apply is_fixed_true in Hf as [? _]. }
  assert (Forall (fun r => is_dynamic r = false) res ∧
          Forall (fun r => is_fixed r = negb (is_host r)) res) as [Hnodyn Hfix].
  { split; eapply Forall2_Forall_r; try exact Hres;
      apply Forall_forall; intros sp _ r Hr; by apply result_of_kind in Hr as (_ & ? & ?). }
  pose proof (fixed_keys_ingress_keys res Hfix) as Hkeys.
  pose proof (fixed_pass_spec (mark_ports res ∅) res ∅ pa) as Hpass.
  destruct (fixed_pass (mark_ports res ∅) res ∅ pa) as [[a|e] pa'] eqn:Hfixed.
  - destruct Hpass as (-> & -> & _ & _).
    eexists. split_and!.
    + unfold run, Allocate, bind, lift. cbn [SpecPorts Ports ep]. fold ep.
      rewrite Hrec. cbn [Ports ep]. rewrite Hfixed.
      by rewrite (dynamic_pass_none _ _ _ _ _ _ Hnodyn).
    + done.
    + apply IsNoop_true. simpl. rewrite mark_ports_keys, Hkeys. done.
  - exfalso. rewrite mark_ports_keys, Hkeys in Hpass.
    destruct Hpass as (_ & [(key & _ & Hin & _ & Hout)|(key & _ & _ & [Hin|Hdup])]).
    + apply Hout. set_solver.
    + set_solver.
    + done.
Qed.

Lemma Allocate_again_witness :
  ∃ prop,
    run (Allocate elements_order
           {| Spec := Some mixed_spec; Ports := [web30000; admin8080; host8080] |}
           (Some mixed_spec)) tcp8080_taken = Ok prop ∧
    Proposal_Ports prop = [web30000; admin8080; host8080] ∧
    IsNoop elements_order prop = true.
Proof.
  refine (Allocate_again elements_order [web; admin8080; host8080]
            [web30000; admin8080; host8080] tcp8080_taken _ _ _ _).
  - repeat constructor; by vm_compute.
  - repeat constructor; try done; by intros [?|?].
  - apply (bool_decide_unpack _). by vm_compute.
  - intros [|[|[|n]]] sp r [= <-] [= <-] Hm Hz; try done.
Defined.

(** ** No port left *)

Lemma dynamic_pass_exhausted (o : map_order) (d : gset port) (ps : list PortConfig)
    (k : nat) (a : gset port) (pa pa' : allocator) (e : error) :
  dynamic_pass o d k ps a pa = (Err e, pa') →
  ∃ proto a', e = ErrResourceExhausted proto ∧ exhausted pa a' proto ∧
    (size a' + 1 ≤ size a + length (List.filter is_dynamic ps))%nat.
Proof.
  revert k a pa pa'. induction ps as [|p rest IH]; intros k a pa pa'; [done|].
  rewrite dynamic_pass_cons. simpl List.filter.
  destruct (is_dynamic p) eqn:Hdyn.
  - destruct (choose_port_spec o k (Protocol p) d a pa) as (c & Hc & Hspec).
    rewrite Hc. destruct c as [i|].
    + apply choose_port_fresh in Hc as Hfresh. unfold bind.
      destruct (dynamic_pass _ _ _ _ _ _) as [[r|e'] pa2] eqn:Hrest; [done|].
      intros [= -> _].
      destruct (IH _ _ _ _ Hrest) as (proto & a' & -> & Hex & Hsize).
      exists proto, a'. split_and!; [done..|].
      rewrite size_union, size_singleton in Hsize by set_solver. simpl. lia.
    + intros [= <- _]. exists (Protocol p), a. split_and!; [done|by destruct Hspec|].
      simpl. lia.
  - unfold bind.
    destruct (dynamic_pass _ _ _ _ _ _) as [[r|e'] pa2] eqn:Hrest; [done|].
    intros [= -> _]. by apply IH in Hrest.
Qed.

Lemma fixed_dynamic_length (ps : list PortConfig) :
  (length (fixed_keys ps) + length (List.filter is_dynamic ps) ≤ length ps)%nat.
Proof.
  induction ps as [|p rest IH]; [done|].
  rewrite fixed_keys_cons. simpl.
  destruct (descriptor_kind p) as [(-> & _ & ->)|[(-> & _ & ->)|(-> & _ & ->)]];
    simpl; lia.
Qed.

Lemma recover_ports_Err_kind (endpoint : Endpoint) (specs : list PortConfig)
    (e : error) :
  recover_ports endpoint specs = Err e → out_of_range_error e.
Proof.
  intros Hrec. destruct (decide (Forall in_master_range specs)) as [Hall|Hnot].
  - by rewrite recover_ports_Ok in Hrec.
  - apply (recover_ports_Err endpoint) in Hnot as (e' & He' & Hkind). congruence.
Qed.

(** X13: [Allocate] returns ResourceExhausted for a protocol only if the
    dynamic range has, for that protocol, fewer ports whose key is not
    reserved in the allocator than the spec has descriptors: with as many
    free ports as descriptors the call never fails for lack of ports. *)
Theorem Allocate_exhausted_only_if_short (o : map_order) (endpoint : Endpoint)
    (spec : option EndpointSpec) (pa : allocator) (proto : PortConfig_Protocol)
    (js : list N) :
  run (Allocate o endpoint spec) pa = Err (ErrResourceExhausted proto) →
  NoDup js →
  Forall (fun j => in_dynamic_range j ∧ (proto, j) ∉ a_ports pa) js →
  (length js < length (SpecPorts (default {| SpecPorts := [] |} spec)))%nat.
Proof.
  unfold run, Allocate, bind, lift.
  replace (match spec with Some s => s | None => {| SpecPorts := [] |} end)
    with (default {| SpecPorts := [] |} spec) by (by destruct spec).
  destruct (recover_ports _ _) as [finalPorts|e] eqn:Hrec;
    [|intros [= ->]; by apply recover_ports_Err_kind in Hrec as (n & [?|?])].
  pose proof (fixed_pass_spec (mark_ports (Ports endpoint) ∅) finalPorts ∅ pa) as Hfix.
  destruct (fixed_pass _ _ _ _) as [[a|e] pa'].
  2: { simpl. intros [= ->].
       by destruct Hfix as (_ & [(key & [=] & _)|(key & [=] & _)]). }
  destruct Hfix as (-> & -> & Hdup & _).
  destruct (dynamic_pass _ _ _ _ _ _) as [[r|e] pa'] eqn:Hpass; [done|].
  simpl. intros [= ->] Hnd Hfree.
  apply dynamic_pass_exhausted in Hpass as (proto' & a' & [= <-] & Hex & Hsize).
  rewrite size_union, size_empty, size_list_to_set in Hsize by (done || set_solver).
  apply recover_ports_inv in Hrec as [_ ->].
  pose proof (fixed_dynamic_length
                (final_port endpoint <$> SpecPorts (default {| SpecPorts := [] |} spec)))
    as Hlen.
  rewrite length_fmap in Hlen.
  assert (list_to_set ((fun j => (proto, j)) <$> js) ⊆ a') as Hsub.
  { intros key (j & -> & Hj)%elem_of_list_to_set%list_elem_of_fmap.
    rewrite Forall_forall in Hfree. destruct (Hfree j Hj) as [Hrange Hout].
    destruct (decide ((proto, j) ∈ a')) as [|Hnot]; [done|].
    by destruct (Hex j Hrange). }
  apply subseteq_size in Hsub.
  rewrite size_list_to_set, length_fmap in Hsub; [lia|].
  apply NoDup_fmap_2; [|done]. by intros ? ? [= ->].
Qed.

(** With every TCP port of the dynamic range reserved, a spec that asks for
    one dynamic TCP port gets ResourceExhausted. *)
Lemma full_tcp_no_port :
  run (Allocate elements_order fresh_endpoint (Some second_spec)) full_tcp
  = Err (ErrResourceExhausted ProtocolTCP).
Proof.
  assert (dynamic_pass elements_order ∅ 0 [web] ∅ full_tcp
          = (Err (ErrResourceExhausted ProtocolTCP), full_tcp)) as Hpass.
  { rewrite dynamic_pass_cons.
    change (is_dynamic web) with true. cbv iota.
    destruct (choose_port_spec elements_order 0 (Protocol web) ∅ ∅ full_tcp)
      as (c & -> & Hc).
    destruct c as [i|]; [|done]. exfalso.
    destruct Hc as [Hfirst|(_ & Hin & _)].
    - apply first_free_not_exhausted in Hfirst. apply Hfirst, full_tcp_exhausted.
    - by apply not_elem_of_empty in Hin. }
  unfold run, Allocate, bind, lift.
  change (recover_ports fresh_endpoint (SpecPorts second_spec)) with (Ok [web]).
  cbv iota beta.
  change (mark_ports (Ports fresh_endpoint) ∅) with (∅ : gset port).
  change (fixed_pass ∅ [web] ∅ full_tcp) with (@Ok (gset port) ∅, full_tcp).
  cbv iota beta. by rewrite Hpass.
Qed.

Lemma Allocate_exhausted_only_if_short_witness :
  (length ([] : list N) < length (SpecPorts second_spec))%nat.
Proof.
  exact (Allocate_exhausted_only_if_short elements_order fresh_endpoint
           (Some second_spec) full_tcp ProtocolTCP [] full_tcp_no_port
           (NoDup_nil_2 (A:=N)) (Forall_nil_2 _)).
Defined.

(** ** The equality helpers *)

(** X14: [PortsMostlyEqual] is an equivalence on pointers to descriptors
    that does not look at the published port: two nil pointers are mostly
    equal, a nil pointer and a descriptor are not, and two descriptors are
    mostly equal exactly when they are equal once their published ports are
    erased. *)
Theorem PortsMostlyEqual_equivalence (x y z : option PortConfig) (p q : PortConfig) :
  PortsMostlyEqual x x = true ∧
  PortsMostlyEqual x y = PortsMostlyEqual y x ∧
  (PortsMostlyEqual x y = true → PortsMostlyEqual y z = true →
   PortsMostlyEqual x z = true) ∧
  PortsMostlyEqual None (Some p) = false ∧
  PortsMostlyEqual (Some p) None = false ∧
  (PortsMostlyEqual (Some p) (Some q) = true ↔
   set_PublishedPort p 0 = set_PublishedPort q 0).
Proof.
  split_and!.
  - destruct x as [a|]; [|done]. by apply PortsMostlyEqual_Some.
  - destruct x as [a|], y as [b|]; try done.
    apply eq_true_iff_eq. rewrite !PortsMostlyEqual_Some. naive_solver.
  - destruct x as [a|], y as [b|], z as [c|]; try done.
    rewrite !PortsMostlyEqual_Some. naive_solver congruence.
  - done.
  - done.
  - rewrite PortsMostlyEqual_Some. unfold set_PublishedPort. split.
    + by intros (-> & -> & -> & ->).
    + by intros [= -> -> -> ->].
Qed.

Lemma PortsMostlyEqual_equivalence_witness :
  PortsMostlyEqual (Some web) (Some web30000) = true ∧
  set_PublishedPort web 0 = set_PublishedPort web30000 0.
Proof.
  pose proof (PortsMostlyEqual_equivalence (Some web) (Some web8080) (Some web30000)
                web web30000) as (_ & _ & Htrans & _ & _ & Hiff).
  assert (PortsMostlyEqual (Some web) (Some web30000) = true) as Hme.
  { apply Htrans; reflexivity. }
  split; [exact Hme|]. apply Hiff, Hme.
Defined.

(** X15: [portsEqual] holds of two descriptors exactly when they agree on
    every field, the published port included; it then implies
    [PortsMostlyEqual], and two mostly equal descriptors with different
    published ports are not equal. *)
Theorem portsEqual_is_equality (p q : PortConfig) :
  (portsEqual p q = true ↔ p = q) ∧
  (portsEqual p q = true → PortsMostlyEqual (Some p) (Some q) = true) ∧
  (PublishedPort p ≠ PublishedPort q → portsEqual p q = false).
Proof.
  split_and!.
  - apply portsEqual_eq.
  - by intros [? _]%portsEqual_fields.
  - intros Hne. apply not_true_iff_false. by intros [_ ?]%portsEqual_fields.
Qed.

Lemma portsEqual_is_equality_witness :
  portsEqual web web = true ∧
  PortsMostlyEqual (Some web) (Some web) = true ∧
  portsEqual web web30000 = false.
Proof.
  pose proof (portsEqual_is_equality web web) as (Hiff & Hme & _).
  pose proof (portsEqual_is_equality web web30000) as (_ & _ & Hne).
  assert (portsEqual web web = true) as Heq by (apply Hiff; reflexivity).
  refine (conj Heq (conj (Hme Heq) (Hne _))). by vm_compute.
Defined.

(** ** AlreadyAllocated *)

(** X16: on specs whose port lists have no nil entry, which is what a list
    of descriptors is here, [AlreadyAllocated] panics exactly when the
    endpoint is present, the desired spec is absent, and the stored spec is
    absent or has no port; on every other such input it returns.  (A nil
    entry in both lists makes the source read a field through nil in
    [portsEqual]; such lists are outside this statement.) *)
Theorem AlreadyAllocated_panics_iff (endpoint : option Endpoint)
    (spec : option EndpointSpec) :
  AlreadyAllocated endpoint spec = Panics ↔
    ∃ ep, endpoint = Some ep ∧ spec = None ∧
          (Spec ep = None ∨ ∃ es, Spec ep = Some es ∧ SpecPorts es = []).
Proof.
  destruct endpoint as [[[[stored]|] realized]|], spec as [[desired]|];
    unfold AlreadyAllocated; simpl.
  - destruct (negb _); split; try done; by intros (? & _ & [=] & _).
  - destruct stored as [|p rest]; simpl; split; try done.
    + intros _. eexists. split_and!; [done..|]. right. by eexists.
    + intros (ep & [= <-] & _ & [[=]|(es & [= <-] & [=])]).
  - split; [done|]. by intros (? & _ & [=] & _).
  - split; [|done]. intros _. eexists. split_and!; [done..|]. by left.
  - split; [done|]. by intros (? & [=] & _).
  - split; [done|]. by intros (? & [=] & _).
Qed.

Lemma AlreadyAllocated_panics_iff_witness :
  AlreadyAllocated (Some fresh_endpoint) None = Panics.
Proof.
  apply (AlreadyAllocated_panics_iff (Some fresh_endpoint) None).
  exists fresh_endpoint. split_and!; [reflexivity..|]. left. reflexivity.
Defined.





(** X19: the proposal of [Deallocate] is a no-op exactly when the endpoint
    has no realized port outside host mode, and so is the proposal that
    [Allocate] returns for an absent spec. *)
Theorem Deallocate_IsNoop (o : map_order) (endpoint : Endpoint) (pa : allocator) :
  (IsNoop o (Deallocate endpoint) = true ↔ ingress_keys (Ports endpoint) = []) ∧
  (∀ prop, run (Allocate o endpoint None) pa = Ok prop →
     (IsNoop o prop = true ↔ ingress_keys (Ports endpoint) = [])).
Proof.
  assert (∀ ks : list port, (∅ : gset port) = list_to_set ks ∪ ∅ ↔ ks = []) as Hempty.
  { intros [|key ks]; split; try done. intros Heq.
    assert (key ∈ (∅ : gset port)) as Hin
      by (rewrite Heq, list_to_set_cons; apply elem_of_union; left;
          apply elem_of_union; left; by apply elem_of_singleton).
    by apply elem_of_empty in Hin. }
  split.
  - rewrite IsNoop_true. unfold Deallocate. simpl. rewrite mark_ports_keys.
    apply Hempty.
  - intros prop [= <-]. rewrite IsNoop_true. simpl. rewrite mark_ports_keys.
    apply Hempty.
Qed.

Lemma Deallocate_IsNoop_witness :
  IsNoop elements_order (Deallocate {| Spec := None; Ports := [host8080] |}) = true ∧
  IsNoop elements_order {| ports := Some []; allocate := ∅; deallocate := ∅ |} = true.
Proof.
  pose proof (Deallocate_IsNoop elements_order
                {| Spec := None; Ports := [host8080] |} NewAllocator) as [Hd Ha].
  split.
  - apply Hd. reflexivity.
  - refine (proj2 (Ha {| ports := Some []; allocate := ∅; deallocate := ∅ |} _) _).
    + by vm_compute.
    + reflexivity.
Defined.
